(** * Safety core of the embedded examples: fault handler and watchdog

    A shallow embedding of
      - [src/examples/embedded/safety/fault_handler.c]
        (CFSR classifier, fault log ring buffer, common fault handler), and
      - [src/examples/embedded/safety/watchdog.cpp]
        (the [Watchdog] class),
    together with the properties the specification states about them.

    Conventions.  A [uint32_t] is a [Z] in the range [0, 2^32); every
    arithmetic operation that can leave the range is wrapped with [wrap32].
    C arrays are lists indexed through stdpp's lookup and insert.  Calls into
    hardware or into collaborators whose code is not part of the safety core
    (the NVM flush, the safe-state entry, the diagnostic log, the watchdog
    registers) are recorded as events of a trace, in program order. *)

From Stdlib Require Import ZArith Lia List Bool.
From stdpp Require Import base list.
Import ListNotations.

Local Open Scope Z_scope.

(** ** Machine words *)

Module Word.

Definition modulus32 : Z := 2 ^ 32.

(** Reduction of an unbounded result to [uint32_t]. *)
Definition wrap32 (x : Z) : Z := x mod modulus32.

Definition is_u32 (x : Z) : Prop := 0 <= x < modulus32.

(** The C truth value of [w & (1 << k)]. *)
Definition bit_and (w : Z) (k : Z) : bool :=
  negb (Z.land w (Z.shiftl 1 k) =? 0).

(** The C truth value of [w & mask]. *)
Definition mask_and (w mask : Z) : bool :=
  negb (Z.land w mask =? 0).

End Word.

Import Word.

(** ** fault_handler.c: the CFSR classifier *)

(** [fault_class_t], with the integer values of the C enumeration. *)
Inductive fault_class_t : Type :=
  | FAULT_CLASS_RECOVERABLE
  | FAULT_CLASS_DEGRADED
  | FAULT_CLASS_FATAL.

Definition fault_class_value (c : fault_class_t) : Z :=
  match c with
  | FAULT_CLASS_RECOVERABLE => 0
  | FAULT_CLASS_DEGRADED => 1
  | FAULT_CLASS_FATAL => 2
  end.

(** Bit positions the classifier decodes, named as in the source comments. *)
Definition IACCVIOL : Z := 0.
Definition DACCVIOL : Z := 1.
Definition IBUSERR : Z := 8.
Definition PRECISERR : Z := 9.
Definition IMPRECISERR : Z := 10.
Definition UNDEFINSTR : Z := 16.
Definition INVSTATE : Z := 17.
Definition INVPC : Z := 18.
Definition DIVBYZERO : Z := 24.

(** Byte and half-word masks of the three status groups. *)
Definition MMFSR_MASK : Z := 0xFF.
Definition BFSR_MASK : Z := 0xFF00.
Definition UFSR_MASK : Z := 0xFFFF0000.

(** The usage-fault block of [analyze_cfsr], with its fall-through to the
    final [return FAULT_CLASS_FATAL]. *)
Definition analyze_usage (cfsr : Z) : fault_class_t :=
  if mask_and cfsr UFSR_MASK then
    if bit_and cfsr UNDEFINSTR then FAULT_CLASS_FATAL
    else if bit_and cfsr INVSTATE then FAULT_CLASS_FATAL
    else if bit_and cfsr INVPC then FAULT_CLASS_FATAL
    else if bit_and cfsr DIVBYZERO then FAULT_CLASS_RECOVERABLE
    else FAULT_CLASS_FATAL
  else FAULT_CLASS_FATAL.

(** The bus-fault block, falling through to the usage-fault block. *)
Definition analyze_bus (cfsr : Z) : fault_class_t :=
  if mask_and cfsr BFSR_MASK then
    if bit_and cfsr IBUSERR then FAULT_CLASS_FATAL
    else if bit_and cfsr PRECISERR then FAULT_CLASS_DEGRADED
    else if bit_and cfsr IMPRECISERR then FAULT_CLASS_DEGRADED
    else analyze_usage cfsr
  else analyze_usage cfsr.

(** [analyze_cfsr]: the memory-management block first, then the rest. *)
Definition analyze_cfsr (cfsr : Z) : fault_class_t :=
  if mask_and cfsr MMFSR_MASK then
    if bit_and cfsr IACCVIOL then FAULT_CLASS_FATAL
    else if bit_and cfsr DACCVIOL then FAULT_CLASS_FATAL
    else analyze_bus cfsr
  else analyze_bus cfsr.

(** Conditions over the decoded bits, one per outcome of the classifier. *)
Definition memory_access_violation (cfsr : Z) : bool :=
  Z.testbit cfsr IACCVIOL || Z.testbit cfsr DACCVIOL.

Definition instruction_bus_error (cfsr : Z) : bool := Z.testbit cfsr IBUSERR.

Definition data_bus_error (cfsr : Z) : bool :=
  Z.testbit cfsr PRECISERR || Z.testbit cfsr IMPRECISERR.

Definition illegal_usage (cfsr : Z) : bool :=
  Z.testbit cfsr UNDEFINSTR || Z.testbit cfsr INVSTATE || Z.testbit cfsr INVPC.

Definition divide_by_zero (cfsr : Z) : bool := Z.testbit cfsr DIVBYZERO.

(** No bit the classifier knows is set. *)
Definition no_known_bit (cfsr : Z) : bool :=
  negb (memory_access_violation cfsr || instruction_bus_error cfsr
        || data_bus_error cfsr || illegal_usage cfsr || divide_by_zero cfsr).

(** The classification read as a priority list over those conditions. *)
Definition classify_by_priority (cfsr : Z) : fault_class_t :=
  if memory_access_violation cfsr then FAULT_CLASS_FATAL
  else if instruction_bus_error cfsr then FAULT_CLASS_FATAL
  else if data_bus_error cfsr then FAULT_CLASS_DEGRADED
  else if illegal_usage cfsr then FAULT_CLASS_FATAL
  else if divide_by_zero cfsr then FAULT_CLASS_RECOVERABLE
  else FAULT_CLASS_FATAL.

(** ** fault_handler.c: fault records and the fault log *)

(** [fault_record_t]: sixteen 32-bit words, the checksum last. *)
Record fault_record_t : Type := mk_fault_record {
  r0 : Z; r1 : Z; r2 : Z; r3 : Z; r12 : Z; lr : Z; pc : Z; psr : Z;
  cfsr : Z; hfsr : Z; dfsr : Z; mmfar : Z; bfar : Z; afsr : Z;
  timestamp : Z; crc : Z
}.

(** Assignment to the [crc] member. *)
Definition set_crc (c : Z) (r : fault_record_t) : fault_record_t :=
  mk_fault_record (r0 r) (r1 r) (r2 r) (r3 r) (r12 r) (lr r) (pc r) (psr r)
    (cfsr r) (hfsr r) (dfsr r) (mmfar r) (bfar r) (afsr r) (timestamp r) c.

Definition CORRUPT_PC : Z := 0xDEADBEEF.

(** The two assignments of the corrupted branch of [fault_get_log]:
    [pc = 0xDEADBEEF; timestamp = 0], every other member left as it was. *)
Definition mark_corrupted (r : fault_record_t) : fault_record_t :=
  mk_fault_record (r0 r) (r1 r) (r2 r) (r3 r) (r12 r) (lr r) CORRUPT_PC (psr r)
    (cfsr r) (hfsr r) (dfsr r) (mmfar r) (bfar r) (afsr r) 0 (crc r).

(** The four bytes of a word, least significant first. *)
Definition u32_bytes (x : Z) : list Z :=
  [x mod 256; (x / 256) mod 256; (x / 65536) mod 256; (x / 16777216) mod 256].

(** The first [sizeof(fault_record_t) - sizeof(uint32_t)] bytes of a record:
    every member but [crc], in declaration order. *)
Definition record_payload (r : fault_record_t) : list Z :=
  concat (map u32_bytes
    [r0 r; r1 r; r2 r; r3 r; r12 r; lr r; pc r; psr r;
     cfsr r; hfsr r; dfsr r; mmfar r; bfar r; afsr r; timestamp r]).

(** [crc32_calculate] comes from crc32.h, which is not among the sources:
    the embedding is parametric in it. *)
Class Checksum : Type := crc32_calculate : list Z -> Z.

Definition FAULT_LOG_MAX_ENTRIES : Z := 16.

(** The two globals of the log. *)
Record fault_log_state : Type := mk_fault_log {
  g_fault_log : list fault_record_t;
  g_fault_count : Z
}.

Section FaultLog.
Context `{Checksum}.

(** The checksum [crc32_calculate] yields on a stored record. *)
Definition expected_crc (e : fault_record_t) : Z :=
  crc32_calculate (record_payload e).

(** The integrity test of [fault_get_log]. *)
Definition record_intact (e : fault_record_t) : bool :=
  crc e =? expected_crc e.

(** A record as it sits in the log after [store_fault_record]. *)
Definition sealed (record : fault_record_t) : fault_record_t :=
  set_crc (expected_crc record) record.

(** [store_fault_record], up to and including [g_fault_count++]; the
    closing [nvm_flush_async()] is an event of the handler's trace. *)
Definition store_fault_record (record : fault_record_t) (st : fault_log_state)
  : fault_log_state :=
  let index := g_fault_count st mod FAULT_LOG_MAX_ENTRIES in
  let copied := <[Z.to_nat index := record]> (g_fault_log st) in
  let stamped := alter (fun e => set_crc (expected_crc e) e) (Z.to_nat index) copied in
  mk_fault_log stamped (wrap32 (g_fault_count st + 1)).

(** The slot iteration [i] reads, in the unsigned arithmetic of the source. *)
Definition read_index (st : fault_log_state) (count i : Z) : nat :=
  Z.to_nat (wrap32 (wrap32 (g_fault_count st - count) + i) mod FAULT_LOG_MAX_ENTRIES).

(** One iteration of the loop of [fault_get_log].  A slot index is always
    below the array size, so the [None] case is never taken on a log of
    [FAULT_LOG_MAX_ENTRIES] entries. *)
Definition get_log_body (st : fault_log_state) (count i : Z)
    (buffer : list fault_record_t) : list fault_record_t :=
  match g_fault_log st !! read_index st count i with
  | Some e =>
      if record_intact e then <[Z.to_nat i := e]> buffer
      else alter mark_corrupted (Z.to_nat i) buffer
  | None => buffer
  end.

(** [n] iterations starting at loop index [i]. *)
Fixpoint get_log_loop (st : fault_log_state) (count : Z) (n : nat) (i : Z)
    (buffer : list fault_record_t) : list fault_record_t :=
  match n with
  | O => buffer
  | S n' => get_log_loop st count n' (i + 1) (get_log_body st count i buffer)
  end.

(** [fault_get_log]: the buffer after the call and the returned count.
    The caller's buffer is taken to have room for the entries written;
    past its end the list update writes nothing. *)
Definition fault_get_log (st : fault_log_state) (buffer : list fault_record_t)
    (max_count : Z) : list fault_record_t * Z :=
  let count := if g_fault_count st <? max_count then g_fault_count st else max_count in
  (get_log_loop st count (Z.to_nat count) 0 buffer, count).

(** What iteration [i] leaves in [buffer[i]], given what was there. *)
Definition slot_output (st : fault_log_state) (count i : Z)
    (old : fault_record_t) : fault_record_t :=
  match g_fault_log st !! read_index st count i with
  | Some e => if record_intact e then e else mark_corrupted old
  | None => old
  end.

(** The count [fault_get_log] computes. *)
Definition read_count (st : fault_log_state) (max_count : Z) : Z :=
  if g_fault_count st <? max_count then g_fault_count st else max_count.

(** [fault_clear_log]. *)
Definition fault_clear_log (st : fault_log_state) : fault_log_state :=
  mk_fault_log (map (set_crc 0) (g_fault_log st)) 0.

(** The array has its declared size and the counter is a [uint32_t]. *)
Definition well_formed (st : fault_log_state) : Prop :=
  length (g_fault_log st) = Z.to_nat FAULT_LOG_MAX_ENTRIES
  /\ is_u32 (g_fault_count st).

(** The log after a run of stores. *)
Definition store_all (records : list fault_record_t) (st : fault_log_state)
  : fault_log_state :=
  fold_left (fun s r => store_fault_record r s) records st.

(** The log that has seen exactly [records], oldest first, since it was
    last cleared. *)
Definition log_of (records : list fault_record_t) (st0 : fault_log_state)
  : fault_log_state :=
  store_all records (fault_clear_log st0).

End FaultLog.

(** ** fault_handler.c: the common fault handler *)

(** Reasons passed to the collaborators of safe_state.h. *)
Inductive degrade_reason_t : Type := DEGRADE_REASON_BUS_FAULT.
Inductive safe_state_reason_t : Type := SAFE_STATE_CPU_FAULT.

(** What the handler does besides updating the log, in program order:
    the calls it makes and its writes to the status block and to the
    stacked program counter. *)
Inductive event : Type :=
  | EvNvmFlush
  | EvScbWriteCFSR (value : Z)
  | EvScbWriteHFSR (value : Z)
  | EvSkipInstruction (new_pc : Z)
  | EvEnterDegradedMode (reason : degrade_reason_t)
  | EvEnterSafeState (reason : safe_state_reason_t)
  | EvSystemReset.

(** The escalation actions among the events. *)
Definition is_escalation (ev : event) : bool :=
  match ev with
  | EvSkipInstruction _ | EvEnterDegradedMode _ | EvEnterSafeState _
  | EvSystemReset => true
  | _ => false
  end.

(** The fault status block as the handler reads it. *)
Record scb_regs : Type := mk_scb {
  CFSR : Z; HFSR : Z; DFSR : Z; MMFAR : Z; BFAR : Z; AFSR : Z
}.

(** Memory the handler works on, and the trace of its events, each with
    the log as it was when the event took place. *)
Record machine : Type := mk_machine {
  log : fault_log_state;
  stack_frame : list Z;
  trace : list (event * fault_log_state)
}.

(** A state monad over [machine]. *)
Definition M (A : Type) : Type := machine -> A * machine.

Definition ret {A} (a : A) : M A := fun m => (a, m).

Definition bind {A B} (c : M A) (k : A -> M B) : M B :=
  fun m => let (a, m') := c m in k a m'.

Notation "'do' x <- c ; k" := (bind c (fun x => k))
  (at level 10, x name, c at level 100, k at level 200).
Notation "'run' c ; k" := (bind c (fun _ => k))
  (at level 10, c at level 100, k at level 200).

Definition emit (ev : event) : M unit :=
  fun m => (tt, mk_machine (log m) (stack_frame m) (trace m ++ [(ev, log m)])).

Definition modify_log (f : fault_log_state -> fault_log_state) : M unit :=
  fun m => (tt, mk_machine (f (log m)) (stack_frame m) (trace m)).

(** [stack_frame[k]]; the frame holds eight words. *)
Definition read_stack (k : nat) : M Z :=
  fun m => (default 0 (stack_frame m !! k), m).

Definition write_stack (k : nat) (v : Z) : M unit :=
  fun m => (tt, mk_machine (log m) (<[k := v]> (stack_frame m)) (trace m)).

(** The action chosen for a classification. *)
Inductive action : Type :=
  | Resume
  | Degrade (reason : degrade_reason_t)
  | SafeState (reason : safe_state_reason_t).

(** The [switch] of [fault_handler_common] over the integer value of the
    classification, [default:] included. *)
Definition decide_action (fault_class : Z) : action :=
  if fault_class =? 0 then Resume
  else if fault_class =? 1 then Degrade DEGRADE_REASON_BUS_FAULT
  else SafeState SAFE_STATE_CPU_FAULT.

(** The bodies of the three cases; the last one runs on into
    [NVIC_SystemReset()]. *)
Definition perform (a : action) : M unit :=
  match a with
  | Resume =>
      do old_pc <- read_stack 6;
      run write_stack 6 (wrap32 (old_pc + 2));
      emit (EvSkipInstruction (wrap32 (old_pc + 2)))
  | Degrade reason => emit (EvEnterDegradedMode reason)
  | SafeState reason => run emit (EvEnterSafeState reason); emit EvSystemReset
  end.

Section Handler.
Context `{Checksum}.

(** [fault_handler_common].  [scb] and [tick] are what the reads of the
    status block and of [get_system_tick()] return; [junk] is the value the
    uninitialised member [record.crc] happens to hold. *)
Definition fault_handler_common (scb : scb_regs) (tick junk : Z)
    (fault_type : Z) : M unit :=
  do w0 <- read_stack 0; do w1 <- read_stack 1;
  do w2 <- read_stack 2; do w3 <- read_stack 3;
  do w4 <- read_stack 4; do w5 <- read_stack 5;
  do w6 <- read_stack 6; do w7 <- read_stack 7;
  let record :=
    mk_fault_record w0 w1 w2 w3 w4 w5 w6 w7
      (CFSR scb) (HFSR scb) (DFSR scb) (MMFAR scb) (BFAR scb) (AFSR scb)
      tick junk in
  run modify_log (store_fault_record record);
  run emit EvNvmFlush;
  let fault_class := analyze_cfsr (cfsr record) in
  run emit (EvScbWriteCFSR (cfsr record));
  run emit (EvScbWriteHFSR (hfsr record));
  perform (decide_action (fault_class_value fault_class)).

End Handler.

(** Vocabulary for the handler's properties. *)
Section HandlerVocabulary.
Context `{Checksum}.

Definition frame_word (m : machine) (k : nat) : Z :=
  default 0 (stack_frame m !! k).

(** The events of each action. *)
Definition escalation_events (a : action) (m : machine) : list event :=
  match a with
  | Resume => [EvSkipInstruction (wrap32 (frame_word m 6 + 2))]
  | Degrade reason => [EvEnterDegradedMode reason]
  | SafeState reason => [EvEnterSafeState reason; EvSystemReset]
  end.

(** The record the handler assembles on machine [m]. *)
Definition captured_record (scb : scb_regs) (tick junk : Z) (m : machine)
  : fault_record_t :=
  mk_fault_record (frame_word m 0) (frame_word m 1) (frame_word m 2)
    (frame_word m 3) (frame_word m 4) (frame_word m 5) (frame_word m 6)
    (frame_word m 7)
    (CFSR scb) (HFSR scb) (DFSR scb) (MMFAR scb) (BFAR scb) (AFSR scb)
    tick junk.

(** The machine the handler leaves behind. *)
Definition handled (scb : scb_regs) (tick junk fault_type : Z) (m : machine)
  : machine :=
  snd (fault_handler_common scb tick junk fault_type m).

(** What one run of the handler adds to the trace. *)
Definition handler_events (scb : scb_regs) (tick junk fault_type : Z)
    (m : machine) : list (event * fault_log_state) :=
  drop (length (trace m)) (trace (handled scb tick junk fault_type m)).

End HandlerVocabulary.

(** ** watchdog.cpp: the [Watchdog] class *)

Module Watchdog.

Definition WDT_DEFAULT_TIMEOUT_MS : Z := 100.
Definition WDT_TIMING_TOLERANCE_PERCENT : Z := 10.

Inductive DiagCode : Type :=
  | WDT_INVALID_TIMEOUT
  | WDT_ALREADY_STARTED
  | WDT_STARTED
  | WDT_LATE_KICK.

(** Calls to the diagnostic log and writes to the watchdog registers.
    [HwConfigure t] stands for the two writes of [start]: the tick count of
    [t] milliseconds to [TIMEOUT], then the enable bits to [CTRL].
    [HwKick] is the write of the key to [KICK]. *)
Inductive wdt_event : Type :=
  | DiagError (code : DiagCode) (arg : Z)
  | DiagWarn (code : DiagCode) (args : list Z)
  | DiagInfo (code : DiagCode) (arg : Z)
  | HwConfigure (timeout_ms : Z)
  | HwKick.

(** The data members. *)
Record state : Type := mk_state {
  m_timeout_ms : Z;
  m_started : bool;
  m_last_kick_time : Z;
  m_kick_count : Z;
  m_late_kick_count : Z
}.

(** What a member function returns, leaves behind and emits. *)
Record outcome (A : Type) : Type := mk_outcome {
  returned : A;
  after : state;
  emitted : list wdt_event
}.
Arguments mk_outcome {A} _ _ _.
Arguments returned {A} _.
Arguments after {A} _.
Arguments emitted {A} _.

(** The constructor.  It has no return value: the outcome is the object
    and the diagnostics. *)
Definition construct (timeout_ms : Z) : outcome unit :=
  if (timeout_ms <? 10) || (timeout_ms >? 1000) then
    mk_outcome tt (mk_state WDT_DEFAULT_TIMEOUT_MS false 0 0 0)
      [DiagError WDT_INVALID_TIMEOUT timeout_ms]
  else
    mk_outcome tt (mk_state timeout_ms false 0 0 0) [].

(** [start()]; [now] is what [get_system_time_ms()] returns. *)
Definition start (now : Z) (w : state) : outcome bool :=
  if m_started w then
    mk_outcome false w [DiagWarn WDT_ALREADY_STARTED []]
  else
    mk_outcome true
      (mk_state (m_timeout_ms w) true now (m_kick_count w) (m_late_kick_count w))
      [HwConfigure (m_timeout_ms w); DiagInfo WDT_STARTED (m_timeout_ms w)].

Definition expected_interval (w : state) : Z := m_timeout_ms w / 2.

Definition tolerance (w : state) : Z :=
  wrap32 (expected_interval w * WDT_TIMING_TOLERANCE_PERCENT) / 100.

(** [now - m_last_kick_time] in 32-bit arithmetic. *)
Definition elapsed (now : Z) (w : state) : Z :=
  wrap32 (now - m_last_kick_time w).

(** The test [elapsed > expected_interval + tolerance]. *)
Definition is_late (now : Z) (w : state) : bool :=
  elapsed now w >? wrap32 (expected_interval w + tolerance w).

(** [kick()]. *)
Definition kick (now : Z) (w : state) : outcome bool :=
  if negb (m_started w) then mk_outcome false w []
  else if is_late now w then
    mk_outcome false
      (mk_state (m_timeout_ms w) (m_started w) now
         (wrap32 (m_kick_count w + 1)) (wrap32 (m_late_kick_count w + 1)))
      [DiagWarn WDT_LATE_KICK [elapsed now w; expected_interval w]; HwKick]
  else
    mk_outcome true
      (mk_state (m_timeout_ms w) (m_started w) now
         (wrap32 (m_kick_count w + 1)) (m_late_kick_count w))
      [HwKick].

(** [get_stats()]. *)
Record Stats : Type := mk_stats {
  kick_count : Z;
  late_kick_count : Z;
  timeout_ms : Z;
  is_running : bool
}.

Definition get_stats (w : state) : Stats :=
  mk_stats (m_kick_count w) (m_late_kick_count w) (m_timeout_ms w) (m_started w).

(** Calls a client makes on a constructed watchdog, each with the system
    time it observes. *)
Inductive call : Type :=
  | CallStart (now : Z)
  | CallKick (now : Z).

Definition step (w : state) (c : call) : state :=
  match c with
  | CallStart now => after (start now w)
  | CallKick now => after (kick now w)
  end.

Definition run_calls (calls : list call) (w : state) : state :=
  fold_left step calls w.

Definition is_kick (c : call) : bool :=
  match c with CallKick _ => true | CallStart _ => false end.

(** Number of [kick()] calls in a run. *)
Definition kicks (calls : list call) : Z :=
  Z.of_nat (length (List.filter is_kick calls)).

(** What holds of the members whatever the client does: the timeout is in
    the range the constructor enforces and the counters are [uint32_t]s. *)
Definition invariant (w : state) : Prop :=
  10 <= m_timeout_ms w <= 1000
  /\ is_u32 (m_kick_count w)
  /\ is_u32 (m_late_kick_count w).

(** One late confirmation followed by [n] further ones in the same
    millisecond, on a watchdog started at time 0. *)
Definition late_then_many (n : nat) : list call :=
  CallStart 0 :: CallKick 1000 :: repeat (CallKick 1000) n.

(** As many confirmations as it takes a 32-bit counter holding 1 to come
    back to 0. *)
Definition wrap_kicks : nat := Z.to_nat (modulus32 - 1).

(** States a client can bring a watchdog into. *)
Definition reachable (w : state) : Prop :=
  exists timeout calls, w = run_calls calls (after (construct timeout)).

(** A watchdog built with the default timeout and started at time 0. *)
Definition armed_default : state :=
  run_calls [CallStart 0] (after (construct 100)).

End Watchdog.

(** ** A concrete checksum

    The reflected CRC-32 (polynomial [0xEDB88320], initial value and final
    complement [0xFFFFFFFF]), computed bit by bit.  It instantiates
    [Checksum] wherever a property is evaluated on concrete records. *)

Fixpoint crc32_shift (n : nat) (c : Z) : Z :=
  match n with
  | O => c
  | S n' =>
      crc32_shift n'
        (if Z.testbit c 0 then Z.lxor (Z.shiftr c 1) 0xEDB88320
         else Z.shiftr c 1)
  end.

Definition crc32_byte (c b : Z) : Z := crc32_shift 8 (Z.lxor c (b mod 256)).

Definition crc32_bitwise : Checksum :=
  fun bytes => Z.lxor (fold_left crc32_byte bytes 0xFFFFFFFF) 0xFFFFFFFF.

(** ** Concrete records and logs *)

Definition blank_record : fault_record_t :=
  mk_fault_record 0 0 0 0 0 0 0 0 0 0 0 0 0 0 0 0.

(** A record told apart by its timestamp only. *)
Definition tick_record (tick : Z) : fault_record_t :=
  mk_fault_record 0 0 0 0 0 0 0 0 0 0 0 0 0 0 tick 0.

(** A record of a fault at address [0xDEADBEEF], taken at tick 0. *)
Definition beef_record : fault_record_t :=
  mk_fault_record 0 0 0 0 0 0 CORRUPT_PC 0 0 0 0 0 0 0 0 0.

(** A log of the declared size, before anything was stored. *)
Definition erased_log : fault_log_state :=
  mk_fault_log (repeat blank_record (Z.to_nat FAULT_LOG_MAX_ENTRIES)) 0.

(** Assignment to the [r0] member; used to damage a stored record. *)
Definition set_r0 (v : Z) (r : fault_record_t) : fault_record_t :=
  mk_fault_record v (r1 r) (r2 r) (r3 r) (r12 r) (lr r) (pc r) (psr r)
    (cfsr r) (hfsr r) (dfsr r) (mmfar r) (bfar r) (afsr r) (timestamp r)
    (crc r).

(** The log holding [beef_record] alone, and the same log after its
    stored copy was damaged in memory. *)
Definition stored_ok : fault_log_state :=
  log_of (H := crc32_bitwise) [beef_record] erased_log.

Definition damaged : fault_log_state :=
  mk_fault_log (alter (set_r0 1) 0%nat (g_fault_log stored_ok))
    (g_fault_count stored_ok).

(** A machine for the handler: an erased log, a stack frame of eight
    words, an empty trace; and a status block reporting a precise bus
    error. *)
Definition idle_machine : machine :=
  mk_machine erased_log [1; 2; 3; 4; 5; 6; 0x08000100; 0x21000000] [].

Definition bus_fault_status : scb_regs := mk_scb 0x200 0 0 0 0 0.

(** ** fault_handler.c: a counter that has gone round *)

(** As many stores as it takes [g_fault_count] to come back to 0. *)
Definition wrap_stores : nat := Z.to_nat modulus32.

(** ** fault_handler.c: damage to a stored checksum *)

(** The log with the [crc] member of slot [s] overwritten by [c], as a
    fault in the backing memory would leave it. *)
Definition with_crc_damage (s : nat) (c : Z) (st : fault_log_state)
  : fault_log_state :=
  mk_fault_log (alter (set_crc c) s (g_fault_log st)) (g_fault_count st).

(** ** fault_handler.c: runs of the handler *)

(** The mask of the nine bits [analyze_cfsr] decodes. *)
Definition DECODED_BITS : Z := 0x01070703.

(** What one fault trap brings to [fault_handler_common]: the exception
    stack frame, the status block, the tick, the value the uninitialised
    [crc] member holds, and the fault type set by the entry point. *)
Record trap : Type := mk_trap {
  trap_frame : list Z;
  trap_scb : scb_regs;
  trap_tick : Z;
  trap_junk : Z;
  trap_type : Z
}.

(** Fault types the four entry points pass in [r1]. *)
Definition HardFault_type : Z := 0.
Definition MemManage_type : Z := 1.
Definition BusFault_type : Z := 2.
Definition UsageFault_type : Z := 3.

Section Traps.
Context `{Checksum}.

(** The machine the handler finds at a trap, with a fresh trace. *)
Definition trap_machine (lg : fault_log_state) (t : trap) : machine :=
  mk_machine lg (trap_frame t) [].

(** The record the handler assembles at a trap. *)
Definition trap_record (t : trap) : fault_record_t :=
  captured_record (trap_scb t) (trap_tick t) (trap_junk t)
    (trap_machine (mk_fault_log [] 0) t).

(** The log after the handler served one trap, and a run of traps. *)
Definition handle_trap (lg : fault_log_state) (t : trap) : fault_log_state :=
  log (handled (trap_scb t) (trap_tick t) (trap_junk t) (trap_type t)
         (trap_machine lg t)).

Definition handle_traps (traps : list trap) (lg : fault_log_state)
  : fault_log_state :=
  fold_left handle_trap traps lg.

End Traps.

(** A division by zero and a precise bus error, as traps on the frame of
    [idle_machine]. *)
Definition divzero_trap : trap :=
  mk_trap [1; 2; 3; 4; 5; 6; 0x08000100; 0x21000000]
    (mk_scb 0x01000000 0 0 0 0 0) 10 0 UsageFault_type.

Definition bus_trap : trap :=
  mk_trap [1; 2; 3; 4; 5; 6; 0x08000200; 0x21000000]
    (mk_scb 0x200 0 0 0 0 0) 20 0 BusFault_type.

(** ** watchdog.cpp: tick conversion and periodic clients *)

Module WatchdogRuns.
Import Watchdog.

(** [ms_to_ticks]; [WDT_CLOCK_HZ] comes from hw_wdt.h, which is not among
    the sources, and is a parameter here. *)
Definition ms_to_ticks (WDT_CLOCK_HZ ms : Z) : Z :=
  wrap32 (ms * WDT_CLOCK_HZ) / 1000.

(** The longest elapsed time [kick()] accepts as on time, for a timeout
    in range: the expected interval plus the tolerance. *)
Definition lateness_threshold (w : state) : Z :=
  m_timeout_ms w / 2 + m_timeout_ms w / 2 * 10 / 100.

(** [n] confirmations, each [d] milliseconds after the one before, the
    first [d] milliseconds after time [t]; the millisecond counter wraps. *)
Fixpoint periodic_kicks (t d : Z) (n : nat) : list call :=
  match n with
  | O => []
  | S n' => CallKick (wrap32 (t + d)) :: periodic_kicks (wrap32 (t + d)) d n'
  end.

(** [w1] is the watchdog right after a confirmation at time [prev]: a
    [kick()] on the armed watchdog [w], or the [start()] that armed [w]
    and stamped the baseline. *)
Definition confirmed_at (prev : Z) (w w1 : state) : Prop :=
  (m_started w = true /\ w1 = after (kick prev w))
  \/ (m_started w = false /\ w1 = after (start prev w)).

(** The time of the last of those confirmations. *)
Fixpoint periodic_end (t d : Z) (n : nat) : Z :=
  match n with
  | O => t
  | S n' => periodic_end (wrap32 (t + d)) d n'
  end.

End WatchdogRuns.

(** * Properties *)

(** ** Machine words *)

Lemma wrap32_range x : is_u32 (wrap32 x).
Proof. unfold is_u32, wrap32, modulus32. apply Z.mod_pos_bound. lia. Qed.

Lemma wrap32_small x : is_u32 x -> wrap32 x = x.
Proof. unfold is_u32, wrap32. intros H. apply Z.mod_small. exact H. Qed.

Lemma land_pow2 w k :
  0 <= k -> Z.land w (Z.shiftl 1 k) = if Z.testbit w k then 2 ^ k else 0.
Proof.
  intros Hk. rewrite Z.shiftl_1_l.
  apply Z.bits_inj'. intros n Hn.
  rewrite Z.land_spec.
  destruct (Z.eq_dec n k) as [->|Hne].
  - rewrite Z.pow2_bits_true by lia.
    destruct (Z.testbit w k); simpl.
    + now rewrite Z.pow2_bits_true by lia.
    + now rewrite Z.bits_0.
  - rewrite Z.pow2_bits_false by lia.
    rewrite andb_false_r.
    destruct (Z.testbit w k).
    + now rewrite Z.pow2_bits_false by lia.
    + now rewrite Z.bits_0.
Qed.

(** [w & (1 << k)] is true exactly when bit [k] of [w] is set. *)
Lemma bit_and_testbit w k : 0 <= k -> bit_and w k = Z.testbit w k.
Proof.
  intros Hk. unfold bit_and. rewrite land_pow2 by assumption.
  destruct (Z.testbit w k); simpl; [|reflexivity].
  assert (0 < 2 ^ k) by (apply Z.pow_pos_nonneg; lia).
  destruct (Z.eqb_spec (2 ^ k) 0); [lia | reflexivity].
Qed.

(** A set bit that lies inside a mask makes [w & mask] true. *)
Lemma mask_and_of_bit w mask k :
  0 <= k -> Z.testbit w k = true -> Z.testbit mask k = true ->
  mask_and w mask = true.
Proof.
  intros Hk Hw Hm. unfold mask_and.
  destruct (Z.eqb_spec (Z.land w mask) 0) as [E|E]; [|reflexivity].
  assert (Z.testbit (Z.land w mask) k = true) as Hb
    by (rewrite Z.land_spec, Hw, Hm; reflexivity).
  rewrite E, Z.bits_0 in Hb. discriminate.
Qed.


(** The concrete checksum on the standard check string "123456789". *)
Example crc32_bitwise_check :
  crc32_bitwise [49; 50; 51; 52; 53; 54; 55; 56; 57] = 0xCBF43926.
Proof. reflexivity. Qed.

(** ** The classifier *)

Example analyze_cfsr_divzero : analyze_cfsr 0x01000000 = FAULT_CLASS_RECOVERABLE.
Proof. reflexivity. Qed.

Example analyze_cfsr_precise : analyze_cfsr 0x200 = FAULT_CLASS_DEGRADED.
Proof. reflexivity. Qed.

Example analyze_cfsr_zero : analyze_cfsr 0 = FAULT_CLASS_FATAL.
Proof. reflexivity. Qed.

(** An address-valid flag (bit 7) with a division by zero resumes. *)
Example analyze_cfsr_flag_and_divzero :
  analyze_cfsr 0x01000080 = FAULT_CLASS_RECOVERABLE.
Proof. reflexivity. Qed.

(** Within the bus block the instruction bus error comes first. *)
Example analyze_cfsr_ibus_and_precise : analyze_cfsr 0x300 = FAULT_CLASS_FATAL.
Proof. reflexivity. Qed.

(** A bus error is decided before an undefined instruction is looked at. *)
Example analyze_cfsr_precise_and_undef :
  analyze_cfsr 0x10200 = FAULT_CLASS_DEGRADED.
Proof. reflexivity. Qed.

(** A set bit inside a group mask enters the group's block. *)
Ltac group_entered E k :=
  exfalso; rewrite (mask_and_of_bit _ _ k) in E;
  [discriminate | discriminate | assumption | reflexivity].

Lemma analyze_usage_bits cfsr :
  analyze_usage cfsr =
    if illegal_usage cfsr then FAULT_CLASS_FATAL
    else if divide_by_zero cfsr then FAULT_CLASS_RECOVERABLE
    else FAULT_CLASS_FATAL.
Proof.
  unfold analyze_usage, illegal_usage, divide_by_zero.
  rewrite !bit_and_testbit by discriminate.
  destruct (mask_and cfsr UFSR_MASK) eqn:E.
  - destruct (Z.testbit cfsr UNDEFINSTR), (Z.testbit cfsr INVSTATE),
      (Z.testbit cfsr INVPC); reflexivity.
  - destruct (Z.testbit cfsr UNDEFINSTR) eqn:B16; [group_entered E UNDEFINSTR|].
    destruct (Z.testbit cfsr INVSTATE) eqn:B17; [group_entered E INVSTATE|].
    destruct (Z.testbit cfsr INVPC) eqn:B18; [group_entered E INVPC|].
    destruct (Z.testbit cfsr DIVBYZERO) eqn:B24; [group_entered E DIVBYZERO|].
    reflexivity.
Qed.

Lemma analyze_bus_bits cfsr :
  analyze_bus cfsr =
    if instruction_bus_error cfsr then FAULT_CLASS_FATAL
    else if data_bus_error cfsr then FAULT_CLASS_DEGRADED
    else analyze_usage cfsr.
Proof.
  unfold analyze_bus, instruction_bus_error, data_bus_error.
  rewrite !bit_and_testbit by discriminate.
  destruct (mask_and cfsr BFSR_MASK) eqn:E.
  - destruct (Z.testbit cfsr IBUSERR), (Z.testbit cfsr PRECISERR); reflexivity.
  - destruct (Z.testbit cfsr IBUSERR) eqn:B8; [group_entered E IBUSERR|].
    destruct (Z.testbit cfsr PRECISERR) eqn:B9; [group_entered E PRECISERR|].
    destruct (Z.testbit cfsr IMPRECISERR) eqn:B10; [group_entered E IMPRECISERR|].
    reflexivity.
Qed.

(** The nested tests of [analyze_cfsr] amount to the priority list: the
    outer group tests never change the outcome. *)
Lemma analyze_cfsr_priority cfsr : analyze_cfsr cfsr = classify_by_priority cfsr.
Proof.
  unfold analyze_cfsr, classify_by_priority, memory_access_violation.
  rewrite !bit_and_testbit by discriminate.
  rewrite analyze_bus_bits, analyze_usage_bits.
  destruct (mask_and cfsr MMFSR_MASK) eqn:E.
  - destruct (Z.testbit cfsr IACCVIOL); reflexivity.
  - destruct (Z.testbit cfsr IACCVIOL) eqn:B0; [group_entered E IACCVIOL|].
    destruct (Z.testbit cfsr DACCVIOL) eqn:B1; [group_entered E DACCVIOL|].
    reflexivity.
Qed.

(** C2, as stated, fails.  A bit of the memory-management status byte that
    the classifier does not decode (bit 3, an unstacking error) together
    with a precise bus error enters the memory block, matches nothing
    there, and is classified by the bus block. *)
Lemma undecoded_memory_bit_not_fatal :
  ~ (forall cfsr,
       is_u32 cfsr ->
       mask_and cfsr MMFSR_MASK = true ->
       analyze_cfsr cfsr = FAULT_CLASS_FATAL).
Proof.
  intros Hclaim.
  assert (is_u32 0x208) as Hword by (unfold is_u32, modulus32; lia).
  specialize (Hclaim 0x208 Hword eq_refl).
  discriminate Hclaim.
Qed.

(** C2, as the code has it.  The classifier decides in priority order
    over the bits it decodes.  A memory access violation (instruction or
    data) is Fatal whatever else is set.  Without
    one, an instruction bus error is Fatal, and otherwise a precise or
    imprecise bus error is Degraded.  Without any of these, an undefined
    instruction, invalid state or invalid PC load is Fatal, and otherwise a
    division by zero is Recoverable. *)
Theorem classifier_priority_order (cfsr : Z) :
  (memory_access_violation cfsr = true ->
     analyze_cfsr cfsr = FAULT_CLASS_FATAL)
  /\ (memory_access_violation cfsr = false ->
       (instruction_bus_error cfsr = true ->
          analyze_cfsr cfsr = FAULT_CLASS_FATAL)
       /\ (instruction_bus_error cfsr = false -> data_bus_error cfsr = true ->
            analyze_cfsr cfsr = FAULT_CLASS_DEGRADED)
       /\ (instruction_bus_error cfsr = false -> data_bus_error cfsr = false ->
            (illegal_usage cfsr = true ->
               analyze_cfsr cfsr = FAULT_CLASS_FATAL)
            /\ (illegal_usage cfsr = false -> divide_by_zero cfsr = true ->
                 analyze_cfsr cfsr = FAULT_CLASS_RECOVERABLE))).
Proof.
  rewrite analyze_cfsr_priority. unfold classify_by_priority.
  split; [intros ->; reflexivity|].
  intros ->. split; [intros ->; reflexivity|].
  split; [intros -> ->; reflexivity|].
  intros -> ->. split; [intros ->; reflexivity|].
  intros -> ->. reflexivity.
Qed.

(** The priority order on five status words, one per clause. *)
Lemma classifier_priority_order_witness :
  analyze_cfsr 0x01070703 = FAULT_CLASS_FATAL
  /\ analyze_cfsr 0x01070700 = FAULT_CLASS_FATAL
  /\ analyze_cfsr 0x01070600 = FAULT_CLASS_DEGRADED
  /\ analyze_cfsr 0x01070000 = FAULT_CLASS_FATAL
  /\ analyze_cfsr 0x01000000 = FAULT_CLASS_RECOVERABLE.
Proof.
  pose proof (classifier_priority_order 0x01070703) as Ha.
  pose proof (classifier_priority_order 0x01070700) as Hb.
  pose proof (classifier_priority_order 0x01070600) as Hc.
  pose proof (classifier_priority_order 0x01070000) as Hd.
  pose proof (classifier_priority_order 0x01000000) as He.
  split; [exact (proj1 Ha eq_refl)|].
  split; [exact (proj1 (proj2 Hb eq_refl) eq_refl)|].
  split; [exact (proj1 (proj2 (proj2 Hc eq_refl)) eq_refl eq_refl)|].
  split.
  - exact (proj1 (proj2 (proj2 (proj2 Hd eq_refl)) eq_refl eq_refl) eq_refl).
  - exact (proj2 (proj2 (proj2 (proj2 He eq_refl)) eq_refl eq_refl)
             eq_refl eq_refl).
Defined.

(** ** The fault log: one store *)

Section StoreFacts.
Context `{Checksum}.

Lemma slot_in_range (x : Z) (slots : list fault_record_t) :
  length slots = Z.to_nat FAULT_LOG_MAX_ENTRIES ->
  (Z.to_nat (x mod FAULT_LOG_MAX_ENTRIES) < length slots)%nat.
Proof.
  intros ->. unfold FAULT_LOG_MAX_ENTRIES.
  pose proof (Z.mod_pos_bound x 16). lia.
Qed.

Lemma store_fault_record_length record st :
  length (g_fault_log (store_fault_record record st)) = length (g_fault_log st).
Proof.
  unfold store_fault_record. cbn.
  now rewrite length_alter, length_insert.
Qed.

Lemma store_fault_record_count record st :
  g_fault_count (store_fault_record record st) = wrap32 (g_fault_count st + 1).
Proof. reflexivity. Qed.

Lemma store_fault_record_well_formed record st :
  well_formed st -> well_formed (store_fault_record record st).
Proof.
  intros [Hlen _]. split.
  - now rewrite store_fault_record_length.
  - rewrite store_fault_record_count. apply wrap32_range.
Qed.

(** The slot written holds the record with its checksum. *)
Lemma store_fault_record_slot record st :
  length (g_fault_log st) = Z.to_nat FAULT_LOG_MAX_ENTRIES ->
  g_fault_log (store_fault_record record st)
    !! Z.to_nat (g_fault_count st mod FAULT_LOG_MAX_ENTRIES)
  = Some (sealed record).
Proof.
  intros Hlen. unfold store_fault_record. cbn.
  rewrite list_lookup_alter_eq, list_lookup_insert_eq
    by now apply slot_in_range.
  reflexivity.
Qed.

(** Every other slot is left alone. *)
Lemma store_fault_record_other record st (j : nat) :
  j <> Z.to_nat (g_fault_count st mod FAULT_LOG_MAX_ENTRIES) ->
  g_fault_log (store_fault_record record st) !! j = g_fault_log st !! j.
Proof.
  intros Hne. unfold store_fault_record. cbn.
  rewrite list_lookup_alter_ne, list_lookup_insert_ne by congruence.
  reflexivity.
Qed.

(** The checksum of a sealed record verifies. *)
Lemma sealed_intact record : record_intact (sealed record) = true.
Proof.
  unfold record_intact, sealed, expected_crc. destruct record; cbn.
  apply Z.eqb_refl.
Qed.

End StoreFacts.

(** ** The common fault handler *)

Section HandlerFacts.
Context `{Checksum}.

Lemma perform_trace a m :
  trace (snd (perform a m))
  = trace m ++ map (fun ev => (ev, log m)) (escalation_events a m).
Proof.
  destruct a; cbn; [reflexivity | reflexivity |].
  now rewrite <- app_assoc.
Qed.

Lemma perform_log a m : log (snd (perform a m)) = log m.
Proof. destruct a; reflexivity. Qed.

(** The log after the handler is the log after one store. *)
Lemma handled_log scb tick junk fault_type m :
  log (handled scb tick junk fault_type m)
  = store_fault_record (captured_record scb tick junk m) (log m).
Proof.
  unfold handled, fault_handler_common, bind, read_stack,
    modify_log, emit. cbn [fst snd].
  rewrite perform_log. reflexivity.
Qed.

(** One run: the flush request, the two status writes, then the action
    chosen for the classification, all of them with the log already
    holding the new record. *)
Lemma handler_events_eq scb tick junk fault_type m :
  handler_events scb tick junk fault_type m
  = map (fun ev =>
           (ev, store_fault_record (captured_record scb tick junk m) (log m)))
      ([EvNvmFlush; EvScbWriteCFSR (CFSR scb); EvScbWriteHFSR (HFSR scb)]
       ++ escalation_events
            (decide_action (fault_class_value (analyze_cfsr (CFSR scb)))) m).
Proof.
  unfold handler_events, handled, fault_handler_common, bind, read_stack,
    modify_log, emit. cbn [fst snd].
  rewrite perform_trace. cbn [trace log cfsr hfsr].
  rewrite <- !app_assoc. rewrite drop_app_length.
  destruct (decide_action _); reflexivity.
Qed.

Lemma handled_trace scb tick junk fault_type m :
  trace (handled scb tick junk fault_type m)
  = trace m ++ handler_events scb tick junk fault_type m.
Proof.
  rewrite handler_events_eq.
  unfold handled, fault_handler_common, bind, read_stack,
    modify_log, emit. cbn [fst snd].
  rewrite perform_trace. cbn [trace log cfsr hfsr].
  rewrite <- !app_assoc.
  destruct (decide_action _); reflexivity.
Qed.

End HandlerFacts.

Section HandlerClaims.
Context `{Checksum}.

(** C1.  A fault-status word in which no known bit is set classifies
    Fatal, and the handler run on it enters the safe state: its escalation
    events are the safe-state entry and the reset, never a resume or a
    degrade.  The action chosen for Fatal, and for any classification value
    that is neither Recoverable nor Degraded, is SafeState. *)
Theorem unknown_cause_enters_safe_state (cfsr : Z) :
  no_known_bit cfsr = true ->
  analyze_cfsr cfsr = FAULT_CLASS_FATAL
  /\ (forall scb tick junk fault_type m,
        CFSR scb = cfsr ->
        List.filter is_escalation
          (map fst (handler_events scb tick junk fault_type m))
        = [EvEnterSafeState SAFE_STATE_CPU_FAULT; EvSystemReset])
  /\ decide_action (fault_class_value FAULT_CLASS_FATAL)
     = SafeState SAFE_STATE_CPU_FAULT
  /\ (forall v : Z,
        v <> fault_class_value FAULT_CLASS_RECOVERABLE ->
        v <> fault_class_value FAULT_CLASS_DEGRADED ->
        decide_action v = SafeState SAFE_STATE_CPU_FAULT).
Proof.
  intros Hnone.
  assert (analyze_cfsr cfsr = FAULT_CLASS_FATAL) as Hfatal.
  { rewrite analyze_cfsr_priority. unfold classify_by_priority.
    revert Hnone. unfold no_known_bit.
    destruct (memory_access_violation cfsr), (instruction_bus_error cfsr),
      (data_bus_error cfsr), (illegal_usage cfsr), (divide_by_zero cfsr);
      cbn; intros Hnone; try discriminate Hnone; reflexivity. }
  split; [exact Hfatal|]. split; [|split].
  - intros scb tick junk fault_type m <-.
    rewrite handler_events_eq, Hfatal. reflexivity.
  - reflexivity.
  - intros v H0 H1. unfold decide_action. cbn in H0, H1.
    destruct (Z.eqb_spec v 0); [contradiction|].
    destruct (Z.eqb_spec v 1); [contradiction|]. reflexivity.
Qed.

(** C3.  What one run of the handler adds to the trace splits in two.
    First come the request to flush the log and the two writes that clear
    the status bits, and no escalation action.  Then come escalation
    actions only, at least one.  At every one of these events the log
    already holds the new record in its slot, checksum included, and it
    still does when the handler is done. *)
Theorem log_before_act scb tick junk fault_type m :
  length (g_fault_log (log m)) = Z.to_nat FAULT_LOG_MAX_ENTRIES ->
  let index := g_fault_count (log m) mod FAULT_LOG_MAX_ENTRIES in
  let record := sealed (captured_record scb tick junk m) in
  exists before acts,
    handler_events scb tick junk fault_type m = before ++ acts
    /\ map fst before
       = [EvNvmFlush; EvScbWriteCFSR (CFSR scb); EvScbWriteHFSR (HFSR scb)]
    /\ acts <> []
    /\ forallb (fun e => is_escalation (fst e)) acts = true
    /\ (forall e, In e (before ++ acts) ->
          g_fault_log (snd e) !! Z.to_nat index = Some record)
    /\ g_fault_log (log (handled scb tick junk fault_type m)) !! Z.to_nat index
       = Some record.
Proof.
  intros Hlen index record.
  pose proof (store_fault_record_slot (captured_record scb tick junk m)
                (log m) Hlen) as Hslot.
  eexists (map _ [_; _; _]), (map _ _).
  split; [rewrite <- map_app; apply handler_events_eq|].
  split; [reflexivity|].
  split; [destruct (decide_action _); discriminate|].
  split; [destruct (decide_action _); reflexivity|].
  split; [|rewrite handled_log; exact Hslot].
  intros e He. rewrite <- map_app in He.
  apply in_map_iff in He as (ev & <- & _). exact Hslot.
Qed.

End HandlerClaims.

(** ** The fault log: reading *)

Section ReadFacts.
Context `{Checksum}.

Lemma get_log_body_lookup st count i buffer (j : nat) :
  get_log_body st count i buffer !! j
  = if decide (Z.to_nat i = j) then slot_output st count i <$> buffer !! j
    else buffer !! j.
Proof.
  unfold get_log_body, slot_output.
  destruct (g_fault_log st !! read_index st count i) as [e|].
  - destruct (record_intact e).
    + rewrite list_insert_alter, list_lookup_alter.
      case_decide; subst; reflexivity.
    + rewrite list_lookup_alter. case_decide; subst; reflexivity.
  - case_decide; [|reflexivity]. now destruct (buffer !! j).
Qed.

Lemma get_log_body_length st count i buffer :
  length (get_log_body st count i buffer) = length buffer.
Proof.
  unfold get_log_body.
  destruct (g_fault_log st !! _) as [e|]; [|reflexivity].
  destruct (record_intact e); [apply length_insert | apply length_alter].
Qed.

Lemma get_log_loop_length st count n i buffer :
  length (get_log_loop st count n i buffer) = length buffer.
Proof.
  revert i buffer. induction n as [|n IH]; intros i buffer; cbn.
  - reflexivity.
  - now rewrite IH, get_log_body_length.
Qed.

(** The loop rewrites exactly the positions it walks over, each once. *)
Lemma get_log_loop_lookup st count n i buffer (j : nat) :
  0 <= i ->
  get_log_loop st count n i buffer !! j
  = if decide (i <= Z.of_nat j < i + Z.of_nat n)
    then slot_output st count (Z.of_nat j) <$> buffer !! j
    else buffer !! j.
Proof.
  revert i buffer. induction n as [|n IH]; intros i buffer Hi; cbn [get_log_loop].
  - case_decide; [lia | reflexivity].
  - rewrite IH by lia. rewrite get_log_body_lookup.
    destruct (decide (Z.to_nat i = j)) as [Heq|Hne].
    + subst j. rewrite Z2Nat.id by lia.
      repeat case_decide; try lia. reflexivity.
    + repeat case_decide; try lia; reflexivity.
Qed.

Lemma fault_get_log_count st buffer max_count :
  snd (fault_get_log st buffer max_count) = read_count st max_count.
Proof. reflexivity. Qed.

Lemma read_count_bounds st max_count :
  is_u32 (g_fault_count st) -> is_u32 max_count ->
  0 <= read_count st max_count
  /\ read_count st max_count <= g_fault_count st
  /\ read_count st max_count <= max_count
  /\ read_count st max_count = Z.min (g_fault_count st) max_count.
Proof.
  unfold is_u32, read_count. intros Hc Hm.
  destruct (Z.ltb_spec (g_fault_count st) max_count); lia.
Qed.

(** Position [j] of the output, for [j] below the returned count. *)
Lemma fault_get_log_lookup st buffer max_count (j : nat) :
  is_u32 (g_fault_count st) -> is_u32 max_count ->
  Z.of_nat j < read_count st max_count ->
  fst (fault_get_log st buffer max_count) !! j
  = slot_output st (read_count st max_count) (Z.of_nat j) <$> buffer !! j.
Proof.
  intros Hc Hm Hj. unfold fault_get_log. cbn [fst]. fold (read_count st max_count).
  pose proof (read_count_bounds st max_count Hc Hm) as (H0 & _).
  rewrite get_log_loop_lookup by lia.
  case_decide; [reflexivity | lia].
Qed.

(** Positions from the returned count on are left as they were. *)
Lemma fault_get_log_beyond st buffer max_count (j : nat) :
  is_u32 (g_fault_count st) -> is_u32 max_count ->
  read_count st max_count <= Z.of_nat j ->
  fst (fault_get_log st buffer max_count) !! j = buffer !! j.
Proof.
  intros Hc Hm Hj. unfold fault_get_log. cbn [fst]. fold (read_count st max_count).
  pose proof (read_count_bounds st max_count Hc Hm) as (H0 & _).
  rewrite get_log_loop_lookup by lia.
  case_decide; [lia | reflexivity].
Qed.

(** The slot read at position [j]: entry number
    [g_fault_count - count + j], modulo the array size. *)
Lemma read_index_eq st max_count (j : Z) :
  is_u32 (g_fault_count st) -> is_u32 max_count ->
  0 <= j < read_count st max_count ->
  read_index st (read_count st max_count) j
  = Z.to_nat ((g_fault_count st - read_count st max_count + j)
              mod FAULT_LOG_MAX_ENTRIES).
Proof.
  intros Hc Hm Hj. unfold read_index.
  pose proof (read_count_bounds st max_count Hc Hm) as (H0 & H1 & _).
  unfold is_u32 in *.
  rewrite (wrap32_small (g_fault_count st - _)) by (unfold is_u32; lia).
  rewrite wrap32_small by (unfold is_u32; lia).
  reflexivity.
Qed.

End ReadFacts.

(** ** The fault log: runs of stores *)

Section RingFacts.
Context `{Checksum}.

Lemma store_all_snoc records record st :
  store_all (records ++ [record]) st
  = store_fault_record record (store_all records st).
Proof. unfold store_all. now rewrite fold_left_app. Qed.

Lemma store_all_length records st :
  length (g_fault_log (store_all records st)) = length (g_fault_log st).
Proof.
  induction records as [|record records IH] using rev_ind; [reflexivity|].
  now rewrite store_all_snoc, store_fault_record_length.
Qed.

(** The counter is the number of stores, modulo [2^32]. *)
Lemma store_all_count records st :
  is_u32 (g_fault_count st) ->
  g_fault_count (store_all records st)
  = wrap32 (g_fault_count st + Z.of_nat (length records)).
Proof.
  intros Hc0.
  induction records as [|record records IH] using rev_ind.
  - cbn. now rewrite Z.add_0_r, wrap32_small.
  - rewrite store_all_snoc, store_fault_record_count, IH.
    rewrite length_app. cbn. unfold wrap32.
    rewrite Zplus_mod_idemp_l. f_equal. lia.
Qed.

(** The array size divides [2^32]: the wrap of the counter does not move
    the slot. *)
Lemma wrap32_slot x :
  wrap32 x mod FAULT_LOG_MAX_ENTRIES = x mod FAULT_LOG_MAX_ENTRIES.
Proof.
  unfold wrap32. apply Z.mod_mod_divide.
  exists 268435456. reflexivity.
Qed.

(** A record stored at most [FAULT_LOG_MAX_ENTRIES] stores ago is still in
    its slot, with the checksum computed when it was stored. *)
Lemma store_all_slot records st (k : nat) record :
  length (g_fault_log st) = Z.to_nat FAULT_LOG_MAX_ENTRIES ->
  is_u32 (g_fault_count st) ->
  records !! k = Some record ->
  Z.of_nat (length records) - Z.of_nat k <= FAULT_LOG_MAX_ENTRIES ->
  g_fault_log (store_all records st)
    !! Z.to_nat ((g_fault_count st + Z.of_nat k) mod FAULT_LOG_MAX_ENTRIES)
  = Some (sealed record).
Proof.
  intros Hlen Hc0. revert k record.
  induction records as [|last records IH] using rev_ind;
    intros k record Hk Hrecent.
  - discriminate.
  - rewrite length_app in Hrecent. cbn in Hrecent.
    rewrite store_all_snoc.
    destruct (decide (k < length records)%nat) as [Hin|Hout].
    + rewrite lookup_app_l in Hk by assumption.
      rewrite store_fault_record_other.
      * apply IH; [assumption | lia].
      * rewrite store_all_count, wrap32_slot by assumption.
        unfold FAULT_LOG_MAX_ENTRIES in *.
        intros Heq. apply Z2Nat.inj in Heq;
          [| apply Z.mod_pos_bound; lia | apply Z.mod_pos_bound; lia].
        Z.div_mod_to_equations. lia.
    + apply lookup_lt_Some in Hk as Hk'. rewrite length_app in Hk'. cbn in Hk'.
      assert (k = length records) as -> by lia.
      rewrite list_lookup_middle in Hk by reflexivity.
      injection Hk as ->.
      rewrite <- wrap32_slot, <- (store_all_count records st) by assumption.
      apply store_fault_record_slot. now rewrite store_all_length.
Qed.

End RingFacts.

(** ** The fault log: reading back what was stored *)

Section HistoryFacts.
Context `{Checksum}.

Lemma fault_clear_log_length st :
  length (g_fault_log (fault_clear_log st)) = length (g_fault_log st).
Proof. unfold fault_clear_log. cbn. apply length_map. Qed.

Lemma log_of_u32 records st0 : is_u32 (g_fault_count (log_of records st0)).
Proof.
  unfold log_of. rewrite store_all_count; [apply wrap32_range|].
  cbn. unfold is_u32, modulus32. lia.
Qed.

(** Below [2^32] stores the counter is the number of stores. *)
Lemma log_of_count records st0 :
  Z.of_nat (length records) < modulus32 ->
  g_fault_count (log_of records st0) = Z.of_nat (length records).
Proof.
  intros Hn. unfold log_of. rewrite store_all_count.
  - cbn. apply wrap32_small. unfold is_u32. lia.
  - cbn. unfold is_u32, modulus32. lia.
Qed.

Lemma log_of_slot records st0 (k : nat) record :
  length (g_fault_log st0) = Z.to_nat FAULT_LOG_MAX_ENTRIES ->
  records !! k = Some record ->
  Z.of_nat (length records) - Z.of_nat k <= FAULT_LOG_MAX_ENTRIES ->
  g_fault_log (log_of records st0)
    !! Z.to_nat (Z.of_nat k mod FAULT_LOG_MAX_ENTRIES)
  = Some (sealed record).
Proof.
  intros Hlen Hk Hrecent. unfold log_of.
  pose proof (store_all_slot records (fault_clear_log st0) k record) as Hslot.
  cbn [fault_clear_log g_fault_count] in Hslot.
  rewrite Z.add_0_l in Hslot. apply Hslot; try assumption.
  - now rewrite fault_clear_log_length.
  - unfold is_u32, modulus32. lia.
Qed.

(** An output position whose iteration reads the slot of a record not yet
    overwritten holds that record, however many stores there were. *)
Lemma fault_get_log_slot records st0 buffer max_count (j k : nat) record :
  length (g_fault_log st0) = Z.to_nat FAULT_LOG_MAX_ENTRIES ->
  is_u32 max_count ->
  let st := log_of records st0 in
  records !! k = Some record ->
  Z.of_nat (length records) - Z.of_nat k <= FAULT_LOG_MAX_ENTRIES ->
  Z.of_nat j < read_count st max_count ->
  (j < length buffer)%nat ->
  read_index st (read_count st max_count) (Z.of_nat j)
  = Z.to_nat (Z.of_nat k mod FAULT_LOG_MAX_ENTRIES) ->
  fst (fault_get_log st buffer max_count) !! j = Some (sealed record).
Proof.
  intros Hlen Hm st Hk Hrecent Hj Hbuf Hslot.
  rewrite fault_get_log_lookup by (try assumption; apply log_of_u32).
  destruct (lookup_lt_is_Some_2 buffer j Hbuf) as [old ->]. cbn.
  unfold slot_output. rewrite Hslot.
  unfold st. rewrite (log_of_slot records st0 k record) by assumption.
  now rewrite sealed_intact.
Qed.

(** Output position [j] holds entry number [n - count + j] of the history,
    provided that entry has not been overwritten since. *)
Lemma fault_get_log_entry records st0 buffer max_count (j k : nat) record :
  length (g_fault_log st0) = Z.to_nat FAULT_LOG_MAX_ENTRIES ->
  Z.of_nat (length records) < modulus32 ->
  is_u32 max_count ->
  let st := log_of records st0 in
  Z.of_nat j < read_count st max_count ->
  (j < length buffer)%nat ->
  Z.of_nat k = Z.of_nat (length records) - read_count st max_count + Z.of_nat j ->
  records !! k = Some record ->
  Z.of_nat (length records) - Z.of_nat k <= FAULT_LOG_MAX_ENTRIES ->
  fst (fault_get_log st buffer max_count) !! j = Some (sealed record).
Proof.
  intros Hlen Hn Hm st Hj Hbuf Hkj Hk Hrecent.
  apply (fault_get_log_slot records st0 buffer max_count j k record);
    try assumption.
  fold st.
  rewrite read_index_eq by (try assumption; try apply log_of_u32; lia).
  unfold st at 1. rewrite log_of_count by assumption.
  now rewrite <- Hkj.
Qed.

(** Reading within the capacity: the most recent [min(max_count, n)]
    records of the history, oldest first, each as it was stored; the rest
    of the buffer is untouched. *)
Lemma fault_get_log_recent records st0 buffer max_count :
  length (g_fault_log st0) = Z.to_nat FAULT_LOG_MAX_ENTRIES ->
  Z.of_nat (length records) < modulus32 ->
  is_u32 max_count ->
  let n := Z.of_nat (length records) in
  Z.min n max_count <= FAULT_LOG_MAX_ENTRIES ->
  Z.min n max_count <= Z.of_nat (length buffer) ->
  let out := fst (fault_get_log (log_of records st0) buffer max_count) in
  let count := snd (fault_get_log (log_of records st0) buffer max_count) in
  count = Z.min n max_count
  /\ take (Z.to_nat count) out = sealed <$> drop (Z.to_nat (n - count)) records
  /\ drop (Z.to_nat count) out = drop (Z.to_nat count) buffer.
Proof.
  intros Hlen Hn Hm n Hcap Hbuf out count.
  assert (g_fault_count (log_of records st0) = n) as Hcount
    by now apply log_of_count.
  assert (is_u32 (g_fault_count (log_of records st0))) as Hu32
    by (rewrite Hcount; unfold is_u32; lia).
  pose proof (read_count_bounds _ max_count Hu32 Hm) as (H0 & H1 & H2 & H3).
  assert (count = Z.min n max_count) as Hc.
  { unfold count. rewrite fault_get_log_count, H3, Hcount. reflexivity. }
  assert (count = read_count (log_of records st0) max_count) as Hrc
    by reflexivity.
  split; [exact Hc|]. split.
  - apply list_eq. intros j.
    rewrite lookup_take, list_lookup_fmap, lookup_drop.
    case_decide as Hj.
    + destruct (records !! (Z.to_nat (n - count) + j)%nat) as [record|] eqn:Hk.
      * cbn. unfold out.
        apply (fault_get_log_entry records st0 buffer max_count j
                 (Z.to_nat (n - count) + j) record); try assumption; try lia.
      * apply lookup_ge_None in Hk. unfold n in *. lia.
    + rewrite lookup_ge_None_2; [reflexivity|]. unfold n in *. lia.
  - apply list_eq. intros j. rewrite !lookup_drop.
    unfold out. apply fault_get_log_beyond; try assumption. lia.
Qed.

End HistoryFacts.

Section LogClaims.
Context `{Checksum}.

(** C9, as the code has it.  A record stored since the last clear and not
    yet overwritten is read back as it was stored.  Every output position whose iteration reads
    the record's slot holds the record, with its members as stored and its
    checksum the one computed at the store, and the integrity test passes on
    it, so it is not marked as corrupted.  With fewer than [2^32] stores, a
    read whose window reaches back to the record has such a position: the
    record's place in the history, less the entries the window skips. *)
Theorem stored_record_reads_back records st0 buffer max_count (k : nat) record :
  length (g_fault_log st0) = Z.to_nat FAULT_LOG_MAX_ENTRIES ->
  is_u32 max_count ->
  records !! k = Some record ->
  Z.of_nat (length records) - Z.of_nat k <= FAULT_LOG_MAX_ENTRIES ->
  let st := log_of records st0 in
  let out := fst (fault_get_log st buffer max_count) in
  let skipped := Z.of_nat (length records) - read_count st max_count in
  (forall j : nat,
     Z.of_nat j < read_count st max_count ->
     (j < length buffer)%nat ->
     read_index st (read_count st max_count) (Z.of_nat j)
     = Z.to_nat (Z.of_nat k mod FAULT_LOG_MAX_ENTRIES) ->
     out !! j = Some (sealed record))
  /\ (Z.of_nat (length records) < modulus32 ->
      Z.of_nat (length records) - Z.of_nat k <= max_count ->
      Z.min (Z.of_nat (length records)) max_count <= Z.of_nat (length buffer) ->
      out !! Z.to_nat (Z.of_nat k - skipped) = Some (sealed record))
  /\ record_intact (sealed record) = true
  /\ set_crc (crc record) (sealed record) = record
  /\ crc (sealed record) = expected_crc record.
Proof.
  intros Hlen Hm Hk Hrecent st out skipped.
  split; [|split; [|split; [apply sealed_intact
                           | split; [now destruct record | reflexivity]]]].
  - intros j Hj Hbuf Hslot. unfold out, st.
    now apply (fault_get_log_slot records st0 buffer max_count j k record).
  - intros Hn Hwindow Hroom.
    assert (g_fault_count st = Z.of_nat (length records)) as Hcount
      by now apply log_of_count.
    assert (is_u32 (g_fault_count st)) as Hu32 by apply log_of_u32.
    pose proof (read_count_bounds st max_count Hu32 Hm) as (H0 & H1 & H2 & H3).
    apply lookup_lt_Some in Hk as Hklt.
    apply (fault_get_log_entry records st0 buffer max_count _ k record);
      try assumption; fold st; unfold skipped; lia.
Qed.

(** C5, as the code has it.  When the slot read for an output position fails
    the integrity test, no member of the stored record is copied: the
    output position keeps what the caller's buffer held, with
    [pc = 0xDEADBEEF] and [timestamp = 0] written over it, and it stays
    counted in the result.  Such an output differs from every record whose
    [pc] is not [0xDEADBEEF] or whose [timestamp] is not 0. *)
Theorem corrupted_entry_marked st buffer max_count (j : nat) e old :
  is_u32 (g_fault_count st) ->
  is_u32 max_count ->
  Z.of_nat j < read_count st max_count ->
  buffer !! j = Some old ->
  g_fault_log st !! read_index st (read_count st max_count) (Z.of_nat j) = Some e ->
  record_intact e = false ->
  fst (fault_get_log st buffer max_count) !! j = Some (mark_corrupted old)
  /\ pc (mark_corrupted old) = CORRUPT_PC
  /\ timestamp (mark_corrupted old) = 0
  /\ (forall v, pc v <> CORRUPT_PC \/ timestamp v <> 0 -> mark_corrupted old <> v)
  /\ Z.of_nat j < snd (fault_get_log st buffer max_count)
  /\ length (fst (fault_get_log st buffer max_count)) = length buffer.
Proof.
  intros Hc Hm Hj Hold He Hbad.
  split.
  - rewrite fault_get_log_lookup, Hold by assumption. cbn.
    unfold slot_output. now rewrite He, Hbad.
  - repeat split; try reflexivity.
    + intros v Hv <-. cbn in Hv. destruct Hv as [Hv|Hv]; now apply Hv.
    + rewrite fault_get_log_count. exact Hj.
    + unfold fault_get_log. cbn. apply get_log_loop_length.
Qed.

End LogClaims.

(** ** The claims on concrete logs *)

(** C4, past the capacity.  After seventeen stores into an erased log of
    sixteen entries, a read of seventeen returns seventeen entries, and the
    first is the newest record again, in place of the overwritten oldest:
    neither the sixteen held, nor oldest first. *)
Theorem read_past_capacity_repeats :
  let records := map tick_record [1; 2; 3; 4; 5; 6; 7; 8; 9; 10; 11; 12; 13;
                                  14; 15; 16; 17] in
  let st := log_of (H := crc32_bitwise) records erased_log in
  let result :=
    fault_get_log (H := crc32_bitwise) st (repeat blank_record 17) 17 in
  snd result = 17
  /\ map timestamp (fst result)
     = [17; 2; 3; 4; 5; 6; 7; 8; 9; 10; 11; 12; 13; 14; 15; 16; 17].
Proof. vm_compute. split; reflexivity. Qed.

Ltac concrete :=
  first [ reflexivity
        | vm_compute; reflexivity
        | unfold FAULT_LOG_MAX_ENTRIES; cbn; lia
        | unfold is_u32, modulus32; lia
        | vm_compute; split; [discriminate | reflexivity]
        | split; [reflexivity | vm_compute; split; [discriminate | reflexivity]] ].

(** A status word with only the undecoded bit 7 set. *)
Lemma unknown_cause_enters_safe_state_witness :
  no_known_bit 0x80 = true /\ analyze_cfsr 0x80 = FAULT_CLASS_FATAL.
Proof.
  split; [reflexivity|].
  exact (proj1 (unknown_cause_enters_safe_state (H := crc32_bitwise) 0x80 eq_refl)).
Defined.

(** The handler on [idle_machine] with a precise bus error. *)
Lemma log_before_act_witness :
  length (g_fault_log (log idle_machine)) = Z.to_nat FAULT_LOG_MAX_ENTRIES
  /\ exists before acts,
       handler_events (H := crc32_bitwise) bus_fault_status 42 7 2 idle_machine
       = before ++ acts
       /\ map fst before = [EvNvmFlush; EvScbWriteCFSR 0x200; EvScbWriteHFSR 0]
       /\ acts <> []
       /\ forallb (fun e => is_escalation (fst e)) acts = true.
Proof.
  split; [reflexivity|].
  destruct (log_before_act (H := crc32_bitwise) bus_fault_status 42 7 2
              idle_machine eq_refl)
    as (before & acts & Hsplit & Hbefore & Hne & Hacts & _).
  exists before, acts. repeat split; assumption.
Defined.

(** Three stores, a read of two: the second record comes first. *)
Lemma stored_record_reads_back_witness :
  fst (fault_get_log (H := crc32_bitwise)
         (log_of (H := crc32_bitwise) (map tick_record [1; 2; 3]) erased_log)
         (repeat blank_record 2) 2) !! 0%nat
  = Some (sealed (H := crc32_bitwise) (tick_record 2)).
Proof.
  assert (length (g_fault_log erased_log) = Z.to_nat FAULT_LOG_MAX_ENTRIES)
    as Hlen by reflexivity.
  assert (is_u32 2) as Hm by concrete.
  assert (Z.of_nat (length (map tick_record [1; 2; 3])) - Z.of_nat 1
          <= FAULT_LOG_MAX_ENTRIES) as Hrecent by concrete.
  destruct (stored_record_reads_back (H := crc32_bitwise)
              (map tick_record [1; 2; 3]) erased_log (repeat blank_record 2) 2
              1%nat (tick_record 2) Hlen Hm eq_refl Hrecent)
    as (_ & Hback & _).
  apply Hback; concrete.
Defined.

(** A read of the damaged log into a blank buffer. *)
Lemma corrupted_entry_marked_witness :
  fst (fault_get_log (H := crc32_bitwise) damaged [blank_record] 1) !! 0%nat
  = Some (mark_corrupted blank_record).
Proof.
  exact (proj1 (corrupted_entry_marked (H := crc32_bitwise) damaged
                  [blank_record] 1 0%nat
                  (set_r0 1 (sealed (H := crc32_bitwise) beef_record))
                  blank_record
                  ltac:(concrete) ltac:(concrete) ltac:(concrete)
                  ltac:(concrete) ltac:(concrete) ltac:(concrete))).
Defined.

(** C5, as stated, fails.  No test on output records tells the positions
    whose slot failed verification from the others: the record of a fault
    at [0xDEADBEEF] at tick 0 is read intact from [stored_ok], and the very
    same output stands for the damaged slot of [damaged] when the buffer
    still holds the earlier read. *)
Lemma corruption_marker_ambiguous :
  ~ (exists is_marker : fault_record_t -> bool,
       forall st buffer max_count (j : nat) e out_j,
         well_formed st ->
         is_u32 max_count ->
         Z.of_nat j < read_count st max_count ->
         (j < length buffer)%nat ->
         g_fault_log st !! read_index st (read_count st max_count) (Z.of_nat j)
         = Some e ->
         fst (fault_get_log (H := crc32_bitwise) st buffer max_count) !! j
         = Some out_j ->
         is_marker out_j = negb (record_intact (H := crc32_bitwise) e)).
Proof.
  intros [is_marker Hclaim].
  pose (valid := sealed (H := crc32_bitwise) beef_record).
  assert (is_marker valid = false) as Hno.
  { rewrite (Hclaim stored_ok [blank_record] 1 0%nat valid valid);
      concrete. }
  assert (is_marker valid = true) as Hyes.
  { rewrite (Hclaim damaged [valid] 1 0%nat (set_r0 1 valid) valid);
      concrete. }
  congruence.
Qed.

(** Every position of a repetition holds the repeated element. *)
Lemma lookup_repeat {A} (x : A) (n i : nat) :
  (i < n)%nat -> repeat x n !! i = Some x.
Proof.
  revert i. induction n as [|n IH]; intros i Hi; [lia|].
  destruct i as [|i]; [reflexivity|]. cbn. apply IH. lia.
Qed.

(** The log after [2^32] stores of one record: the counter is back at 0
    while the last slot holds the newest record. *)
Lemma wrapped_log_state `{Checksum} (n : nat) record st0 :
  length (g_fault_log st0) = Z.to_nat FAULT_LOG_MAX_ENTRIES ->
  Z.of_nat n = modulus32 ->
  let records := repeat record n in
  records !! Nat.pred n = Some record
  /\ Z.of_nat (length records) - Z.of_nat (Nat.pred n) <= FAULT_LOG_MAX_ENTRIES
  /\ g_fault_count (log_of records st0) = 0
  /\ g_fault_log (log_of records st0) !! 15%nat = Some (sealed record).
Proof.
  intros Hlen Hn records.
  assert (0 < n)%nat as Hpos by (unfold modulus32 in Hn; lia).
  assert (records !! Nat.pred n = Some record) as Hlast
    by (apply lookup_repeat; lia).
  assert (Z.of_nat (length records) - Z.of_nat (Nat.pred n)
          <= FAULT_LOG_MAX_ENTRIES) as Hrecent.
  { unfold records. rewrite repeat_length.
    unfold FAULT_LOG_MAX_ENTRIES. lia. }
  split; [exact Hlast|]. split; [exact Hrecent|]. split.
  - unfold log_of. rewrite store_all_count.
    + cbn [fault_clear_log g_fault_count]. unfold records.
      rewrite repeat_length, Z.add_0_l, Hn.
      unfold wrap32. apply Z.mod_same. discriminate.
    + cbn. unfold is_u32, modulus32. lia.
  - pose proof (log_of_slot records st0 (Nat.pred n) record Hlen Hlast
                  Hrecent) as Hslot.
    replace (Z.of_nat (Nat.pred n)) with (modulus32 - 1) in Hslot by lia.
    exact Hslot.
Qed.

Lemma wrap_stores_eq : Z.of_nat wrap_stores = modulus32.
Proof. unfold wrap_stores. apply Z2Nat.id. unfold modulus32. lia. Qed.

(** C9, as stated, fails.  After [2^32] stores the newest record sits in
    its slot, not overwritten, and no read returns it: the counter has
    wrapped to 0, so every read returns a count of 0. *)
Lemma wrapped_log_reads_nothing :
  ~ (forall (records : list fault_record_t) (k : nat) (record : fault_record_t),
       records !! k = Some record ->
       Z.of_nat (length records) - Z.of_nat k <= FAULT_LOG_MAX_ENTRIES ->
       exists (max_count : Z) (buffer : list fault_record_t) (j : nat),
         is_u32 max_count
         /\ Z.of_nat j
            < snd (fault_get_log (H := crc32_bitwise)
                     (log_of (H := crc32_bitwise) records erased_log)
                     buffer max_count)
         /\ fst (fault_get_log (H := crc32_bitwise)
                   (log_of (H := crc32_bitwise) records erased_log)
                   buffer max_count) !! j
            = Some (sealed (H := crc32_bitwise) record)).
Proof.
  intros Hclaim.
  pose proof wrap_stores_eq as Hn. revert Hn.
  generalize wrap_stores. intros n Hn.
  destruct (wrapped_log_state (H := crc32_bitwise) n beef_record
              erased_log eq_refl Hn)
    as (Hlast & Hrecent & Hcount & _).
  destruct (Hclaim _ _ _ Hlast Hrecent)
    as (max_count & buffer & j & Hm & Hj & _).
  rewrite fault_get_log_count in Hj. unfold read_count in Hj.
  rewrite Hcount in Hj. unfold is_u32 in Hm.
  clear Hlast Hrecent Hcount Hclaim.
  destruct (Z.ltb_spec 0 max_count); lia.
Qed.

(** ** The watchdog *)

Module WatchdogFacts.
Import Watchdog.

Lemma construct_invariant timeout : invariant (after (construct timeout)).
Proof.
  unfold construct, invariant, is_u32, modulus32, WDT_DEFAULT_TIMEOUT_MS.
  destruct (Z.ltb_spec timeout 10); cbn; [lia|].
  rewrite Z.gtb_ltb.
  destruct (Z.ltb_spec 1000 timeout); cbn; lia.
Qed.

Lemma start_invariant now w : invariant w -> invariant (after (start now w)).
Proof. unfold start. destruct (m_started w); cbn; trivial. Qed.

Lemma kick_invariant now w : invariant w -> invariant (after (kick now w)).
Proof.
  intros Hw. pose proof Hw as (Ht & Hk & Hl). unfold kick.
  destruct (m_started w); cbn; [|exact Hw].
  destruct (is_late now w); unfold invariant; cbn;
    auto using wrap32_range.
Qed.

Lemma step_invariant w c : invariant w -> invariant (step w c).
Proof. destruct c; cbn; [apply start_invariant | apply kick_invariant]. Qed.

Lemma run_calls_snoc calls c w :
  run_calls (calls ++ [c]) w = step (run_calls calls w) c.
Proof. unfold run_calls. now rewrite fold_left_app. Qed.

Lemma run_calls_invariant calls w : invariant w -> invariant (run_calls calls w).
Proof.
  intros Hw. induction calls as [|c calls IH] using rev_ind; [exact Hw|].
  rewrite run_calls_snoc. now apply step_invariant.
Qed.

Lemma reachable_invariant w : reachable w -> invariant w.
Proof.
  intros (timeout & calls & ->).
  apply run_calls_invariant, construct_invariant.
Qed.

(** With a timeout in range nothing wraps in the lateness test: the
    tolerance is the tenth of the expected interval, rounded down. *)
Lemma tolerance_exact w :
  10 <= m_timeout_ms w <= 1000 ->
  tolerance w = m_timeout_ms w / 2 * 10 / 100
  /\ 5 <= expected_interval w <= 500
  /\ 0 <= tolerance w <= 50.
Proof.
  intros Ht. unfold tolerance, expected_interval, WDT_TIMING_TOLERANCE_PERCENT.
  assert (5 <= m_timeout_ms w / 2 <= 500) as Hhalf
    by (Z.div_mod_to_equations; lia).
  rewrite wrap32_small by (unfold is_u32, modulus32; lia).
  repeat split; try lia; Z.div_mod_to_equations; lia.
Qed.

Lemma is_late_iff now w :
  10 <= m_timeout_ms w <= 1000 ->
  is_late now w = true
  <-> m_timeout_ms w / 2 + m_timeout_ms w / 2 * 10 / 100 < elapsed now w.
Proof.
  intros Ht. destruct (tolerance_exact w Ht) as (Htol & Hhalf & Hrange).
  unfold is_late. rewrite Z.gtb_ltb, Z.ltb_lt.
  rewrite wrap32_small by (unfold is_u32, modulus32; lia).
  rewrite Htol. unfold expected_interval. reflexivity.
Qed.

(** The events of a confirmation end with the hardware kick, late or not. *)
Lemma kick_emits_hw_kick now w :
  m_started w = true -> In HwKick (emitted (kick now w)).
Proof.
  intros Hs. unfold kick. rewrite Hs. cbn.
  destruct (is_late now w); cbn; tauto.
Qed.

Lemma kicks_snoc calls c :
  kicks (calls ++ [c]) = kicks calls + (if is_kick c then 1 else 0).
Proof.
  unfold kicks. rewrite List.filter_app, length_app. cbn.
  destruct (is_kick c); cbn; lia.
Qed.

Lemma kicks_nonneg calls : 0 <= kicks calls.
Proof. unfold kicks. lia. Qed.

(** Confirmations repeated within the same millisecond are on time: only
    the confirmation counter moves, modulo [2^32]. *)
Lemma same_instant_kicks (n : nat) (t : Z) w :
  m_started w = true ->
  10 <= m_timeout_ms w <= 1000 ->
  m_last_kick_time w = t ->
  is_u32 (m_kick_count w) ->
  run_calls (repeat (CallKick t) n) w
  = mk_state (m_timeout_ms w) true t
      (wrap32 (m_kick_count w + Z.of_nat n)) (m_late_kick_count w).
Proof.
  revert w. induction n as [|n IH]; intros w Hs Ht Hlast Hk.
  - destruct w; cbn in *; subst.
    now rewrite Z.add_0_r, wrap32_small.
  - cbn [repeat].
    change (run_calls (CallKick t :: repeat (CallKick t) n) w)
      with (run_calls (repeat (CallKick t) n) (after (kick t w))).
    assert (is_late t w = false) as Hlate.
    { destruct (is_late t w) eqn:E; [|reflexivity].
      apply is_late_iff in E; [|assumption].
      unfold elapsed in E. rewrite Hlast, Z.sub_diag in E.
      change (wrap32 0) with 0 in E.
      exfalso. Z.div_mod_to_equations. lia. }
    assert (after (kick t w)
            = mk_state (m_timeout_ms w) true t
                (wrap32 (m_kick_count w + 1)) (m_late_kick_count w)) as ->.
    { unfold kick. rewrite Hs, Hlate. reflexivity. }
    rewrite IH; try reflexivity; try assumption; [|apply wrap32_range].
    cbn. f_equal. unfold wrap32.
    rewrite Zplus_mod_idemp_l. f_equal. lia.
Qed.

(** The state after [late_then_many n] on a watchdog built with the
    default timeout. *)
Lemma late_then_many_state (n : nat) :
  run_calls (late_then_many n) (after (construct 100))
  = mk_state 100 true 1000 (wrap32 (1 + Z.of_nat n)) 1.
Proof.
  unfold late_then_many.
  change (run_calls (CallStart 0 :: CallKick 1000 :: repeat (CallKick 1000) n)
            (after (construct 100)))
    with (run_calls (repeat (CallKick 1000) n) (mk_state 100 true 1000 1 1)).
  rewrite same_instant_kicks; try reflexivity; cbn; try lia.
  unfold is_u32, modulus32. lia.
Qed.

Lemma wrap_kicks_eq : Z.of_nat wrap_kicks = modulus32 - 1.
Proof. unfold wrap_kicks. apply Z2Nat.id. unfold modulus32. lia. Qed.

End WatchdogFacts.

Module WatchdogClaims.
Import Watchdog WatchdogFacts WatchdogRuns.

(** C6.  Take a watchdog in a reachable state, with timeout [T], right
    after a confirmation at time [prev]: a [kick()] while armed, or the
    [start()] that armed it.  A [kick()] at time [prev + T/2], on the
    32-bit millisecond counter, leaves the late counter as it is.  A
    [kick()] at time [prev + T/2 + tolerance + 1], the tolerance being
    [T/2 * 10 / 100], performs the increment of the late counter, which
    changes it (by one, unless the 32-bit counter was at its maximum).
    On every armed watchdog in a reachable state, late or not, [kick()]
    writes the hardware kick, the only other event can be the late-kick
    warning, and the watchdog stays armed. *)
Theorem kick_timing (w w1 : state) (prev : Z) :
  reachable w ->
  is_u32 prev ->
  confirmed_at prev w w1 ->
  let half := m_timeout_ms w1 / 2 in
  let tol := half * 10 / 100 in
  let on_time := after (kick (wrap32 (prev + half)) w1) in
  let late := after (kick (wrap32 (prev + half + tol + 1)) w1) in
  m_late_kick_count on_time = m_late_kick_count w1
  /\ m_late_kick_count late = wrap32 (m_late_kick_count w1 + 1)
  /\ m_late_kick_count late <> m_late_kick_count w1
  /\ (m_late_kick_count w1 + 1 < modulus32 ->
      m_late_kick_count late = m_late_kick_count w1 + 1)
  /\ (forall v now,
        reachable v ->
        m_started v = true ->
        In HwKick (emitted (kick now v))
        /\ (forall ev, In ev (emitted (kick now v)) ->
              ev = HwKick
              \/ ev = DiagWarn WDT_LATE_KICK [elapsed now v; expected_interval v])
        /\ m_started (after (kick now v)) = true).
Proof.
  intros Hreach Hu Hconf half tol on_time late.
  destruct (reachable_invariant w Hreach) as (Ht & Hk & Hl).
  assert (m_started w1 = true /\ m_last_kick_time w1 = prev
          /\ m_timeout_ms w1 = m_timeout_ms w
          /\ is_u32 (m_late_kick_count w1)) as (Hs1 & Hlast & Htime & Hl1).
  { destruct Hconf as [[Hs ->]|[Hs ->]]; unfold kick, start; rewrite Hs; cbn.
    - destruct (is_late prev w); cbn;
        (split; [reflexivity | split; [reflexivity | split; [reflexivity|]]]);
        [apply wrap32_range | exact Hl].
    - split; [reflexivity | split; [reflexivity | split; [reflexivity|]]].
      exact Hl. }
  assert (10 <= m_timeout_ms w1 <= 1000) as Ht1 by (rewrite Htime; exact Ht).
  assert (5 <= half <= 500) as Hhalf
    by (unfold half; Z.div_mod_to_equations; lia).
  assert (0 <= tol <= 50) as Htol
    by (unfold tol; Z.div_mod_to_equations; lia).
  assert (forall d, is_u32 d -> elapsed (wrap32 (prev + d)) w1 = d) as Hgap.
  { intros d Hd. unfold elapsed, wrap32. rewrite Hlast, Zminus_mod_idemp_l.
    replace (prev + d - prev) with d by lia. now apply Z.mod_small. }
  assert (is_late (wrap32 (prev + half)) w1 = false) as Hon.
  { destruct (is_late (wrap32 (prev + half)) w1) eqn:E; [|reflexivity].
    apply (is_late_iff _ w1 Ht1) in E. fold half in E. fold tol in E.
    rewrite Hgap in E by (unfold is_u32, modulus32; lia). lia. }
  assert (is_late (wrap32 (prev + half + tol + 1)) w1 = true) as Hlate.
  { apply (is_late_iff _ w1 Ht1). fold half. fold tol.
    replace (prev + half + tol + 1) with (prev + (half + tol + 1)) by lia.
    rewrite Hgap by (unfold is_u32, modulus32; lia). lia. }
  split; [|split; [|split; [|split]]].
  - unfold on_time, kick. rewrite Hs1, Hon. reflexivity.
  - unfold late, kick. rewrite Hs1, Hlate. reflexivity.
  - unfold late, kick. rewrite Hs1, Hlate. cbn.
    unfold is_u32 in Hl1. unfold wrap32, modulus32 in *.
    Z.div_mod_to_equations. lia.
  - intros Hroom. unfold late, kick. rewrite Hs1, Hlate. cbn.
    apply wrap32_small. unfold is_u32 in *. lia.
  - intros v now Hv Hsv. split; [now apply kick_emits_hw_kick|]. split.
    + intros ev. unfold kick. rewrite Hsv. cbn.
      destruct (is_late now v); cbn; intuition.
    + unfold kick. rewrite Hsv. cbn. destruct (is_late now v); reflexivity.
Qed.

(** C7.  [start()] on a watchdog that is already armed returns [false],
    logs the already-started warning and nothing else, writes no hardware
    register, and leaves every member as it was. *)
Theorem start_when_armed (w : state) (now : Z) :
  m_started w = true ->
  returned (start now w) = false
  /\ emitted (start now w) = [DiagWarn WDT_ALREADY_STARTED []]
  /\ after (start now w) = w.
Proof. intros Hs. unfold start. rewrite Hs. cbn. auto. Qed.

(** C8, as the code has it.  A timeout outside [10, 1000] makes the
    constructor log the invalid-timeout error with the offending value and
    fall back to the default timeout; whenever the timeout kept differs
    from the one asked for, that error is among the diagnostics. *)
Theorem invalid_timeout_logged (timeout : Z) :
  (timeout < 10 \/ 1000 < timeout ->
     emitted (construct timeout) = [DiagError WDT_INVALID_TIMEOUT timeout]
     /\ m_timeout_ms (after (construct timeout)) = WDT_DEFAULT_TIMEOUT_MS)
  /\ (m_timeout_ms (after (construct timeout)) <> timeout ->
       In (DiagError WDT_INVALID_TIMEOUT timeout) (emitted (construct timeout))).
Proof.
  unfold construct. rewrite Z.gtb_ltb.
  destruct (Z.ltb_spec timeout 10), (Z.ltb_spec 1000 timeout); cbn;
    (split; [intros Hout; try lia; auto | intros Hne; tauto]).
Qed.

(** C8, as stated, fails.  What the constructor hands back is the same
    for the invalid timeout 5 and the valid timeout 100, so no status read
    from it can tell that the first was rejected. *)
Lemma construct_returns_no_status :
  ~ (exists status : unit -> state -> bool,
       forall timeout, is_u32 timeout ->
         status (returned (construct timeout)) (after (construct timeout))
         = negb ((timeout <? 10) || (timeout >? 1000))).
Proof.
  intros [status Hstatus].
  assert (is_u32 5) as H5 by (unfold is_u32, modulus32; lia).
  assert (is_u32 100) as H100 by (unfold is_u32, modulus32; lia).
  pose proof (Hstatus 5 H5) as Hbad.
  pose proof (Hstatus 100 H100) as Hgood.
  cbn in Hbad, Hgood. unfold WDT_DEFAULT_TIMEOUT_MS in Hbad. congruence.
Qed.

(** C10, as the code has it.  After a run with fewer than [2^32] calls of
    [kick()] the late counter is at most the confirmation counter, which is
    at most the number of those calls.  [kick()] on an armed watchdog
    increments the confirmation counter, modulo [2^32]; on a watchdog that
    is not armed it changes nothing. *)
Theorem counters_ordered (timeout : Z) (calls : list call) :
  kicks calls < modulus32 ->
  let w := run_calls calls (after (construct timeout)) in
  (0 <= m_late_kick_count w <= m_kick_count w
   /\ m_kick_count w <= kicks calls)
  /\ (forall now, m_started w = true ->
        m_kick_count (after (kick now w)) = wrap32 (m_kick_count w + 1))
  /\ (forall now, m_started w = false -> after (kick now w) = w).
Proof.
  intros Hfew w. split; [|split].
  - unfold w. clear w. revert Hfew.
    induction calls as [|c calls IH] using rev_ind; intros Hfew.
    + unfold construct, kicks.
      destruct ((timeout <? 10) || (timeout >? 1000)); cbn; lia.
    + rewrite kicks_snoc in *. rewrite run_calls_snoc.
      pose proof (kicks_nonneg calls) as Hnn.
      destruct c as [now|now]; cbn [is_kick step] in *.
      * assert (kicks calls < modulus32) as Hprev by lia.
        specialize (IH Hprev).
        unfold start. destruct (m_started _); cbn; lia.
      * assert (kicks calls < modulus32) as Hprev by lia.
        specialize (IH Hprev). unfold kick.
        destruct (m_started _); cbn; [|lia].
        destruct (is_late now _); cbn;
          rewrite ?wrap32_small by (unfold is_u32; lia); lia.
  - intros now Hs. unfold kick. rewrite Hs. cbn.
    destruct (is_late now w); reflexivity.
  - intros now Hs. unfold kick. rewrite Hs. reflexivity.
Qed.

(** C10, as stated, fails.  One late confirmation followed by [2^32 - 1]
    further ones wraps the confirmation counter to 0 while the late counter
    is 1. *)
Lemma late_count_exceeds_kick_count :
  ~ (forall w, reachable w -> m_late_kick_count w <= m_kick_count w).
Proof.
  intros Hclaim.
  specialize (Hclaim (run_calls (late_then_many wrap_kicks)
                        (after (construct 100)))).
  rewrite late_then_many_state, wrap_kicks_eq in Hclaim.
  replace (1 + (modulus32 - 1)) with modulus32 in Hclaim by lia.
  unfold wrap32 in Hclaim. rewrite Z.mod_same in Hclaim by discriminate.
  cbn in Hclaim.
  assert (1 <= 0) as Habsurd; [|lia].
  apply Hclaim. exists 100, (late_then_many wrap_kicks).
  now rewrite late_then_many_state, wrap_kicks_eq.
Qed.

(** Timeout 100, started at 0 and confirmed at 50: a confirmation at 100
    is on time, one at 106 is late. *)
Lemma kick_timing_witness :
  let w1 := after (kick 50 armed_default) in
  m_late_kick_count (after (kick 100 w1)) = m_late_kick_count w1
  /\ m_late_kick_count (after (kick 106 w1))
     = wrap32 (m_late_kick_count w1 + 1).
Proof.
  assert (reachable armed_default) as Hreach
    by (exists 100, [CallStart 0]; reflexivity).
  assert (is_u32 50) as Hu by (unfold is_u32, modulus32; lia).
  destruct (kick_timing armed_default (after (kick 50 armed_default)) 50
              Hreach Hu (or_introl (conj eq_refl eq_refl)))
    as (Hon & Hlate & _).
  split; [exact Hon | exact Hlate].
Defined.

(** A second [start()] on [armed_default]. *)
Lemma start_when_armed_witness :
  returned (start 7 armed_default) = false
  /\ emitted (start 7 armed_default) = [DiagWarn WDT_ALREADY_STARTED []]
  /\ after (start 7 armed_default) = armed_default.
Proof. exact (start_when_armed armed_default 7 eq_refl). Defined.

(** Construction with a timeout of 5 ms. *)
Lemma invalid_timeout_logged_witness :
  emitted (construct 5) = [DiagError WDT_INVALID_TIMEOUT 5]
  /\ m_timeout_ms (after (construct 5)) = WDT_DEFAULT_TIMEOUT_MS.
Proof.
  apply (proj1 (invalid_timeout_logged 5)). left. lia.
Defined.

(** A start, a late confirmation and one on time. *)
Lemma counters_ordered_witness :
  let w := run_calls [CallStart 0; CallKick 1000; CallKick 1040]
             (after (construct 100)) in
  0 <= m_late_kick_count w <= m_kick_count w
  /\ m_kick_count w <= kicks [CallStart 0; CallKick 1000; CallKick 1040].
Proof.
  exact (proj1 (counters_ordered 100
                  [CallStart 0; CallKick 1000; CallKick 1040] eq_refl)).
Defined.

End WatchdogClaims.

(** * Further properties of the fault log *)

Section LogReading.
Context `{Checksum}.

Lemma mark_corrupted_twice r : mark_corrupted (mark_corrupted r) = mark_corrupted r.
Proof. now destruct r. Qed.

Lemma slot_output_twice st count i old :
  slot_output st count i (slot_output st count i old) = slot_output st count i old.
Proof.
  unfold slot_output.
  destruct (g_fault_log st !! read_index st count i) as [e|]; [|reflexivity].
  destruct (record_intact e); [reflexivity | apply mark_corrupted_twice].
Qed.

(** Every position of the output, in terms of the buffer passed in. *)
Lemma fault_get_log_position st buffer max_count (j : nat) :
  fst (fault_get_log st buffer max_count) !! j
  = if decide (Z.of_nat j < Z.of_nat (Z.to_nat (read_count st max_count)))
    then slot_output st (read_count st max_count) (Z.of_nat j) <$> buffer !! j
    else buffer !! j.
Proof.
  unfold fault_get_log. cbn [fst]. fold (read_count st max_count).
  rewrite get_log_loop_lookup by lia.
  repeat case_decide; try lia; reflexivity.
Qed.

(** A buffer and count, put together from the front and the rest. *)
Lemma result_from_parts (result : list fault_record_t * Z) c front rest :
  snd result = c ->
  take (Z.to_nat c) (fst result) = front ->
  drop (Z.to_nat c) (fst result) = rest ->
  result = (front ++ rest, c).
Proof.
  intros Hc Hfront Hrest. rewrite (surjective_pairing result).
  rewrite Hc. f_equal.
  now rewrite <- (take_drop (Z.to_nat c) (fst result)), Hfront, Hrest.
Qed.

(** X1.  With fewer than [2^32] stores since the last clear and a window
    [min(n, max_count)] that fits the capacity and the buffer, a read
    returns that count and fills the front of the buffer with the newest
    records of the history, oldest first, each as stored; the rest of the
    buffer is as it was. *)
Theorem read_returns_newest_window records st0 buffer max_count :
  length (g_fault_log st0) = Z.to_nat FAULT_LOG_MAX_ENTRIES ->
  Z.of_nat (length records) < modulus32 ->
  is_u32 max_count ->
  let n := Z.of_nat (length records) in
  let c := Z.min n max_count in
  c <= FAULT_LOG_MAX_ENTRIES ->
  c <= Z.of_nat (length buffer) ->
  fault_get_log (log_of records st0) buffer max_count
  = (map sealed (drop (Z.to_nat (n - c)) records) ++ drop (Z.to_nat c) buffer, c).
Proof.
  intros Hlen Hn Hm n c Hcap Hroom.
  destruct (fault_get_log_recent records st0 buffer max_count Hlen Hn Hm
              Hcap Hroom) as (Hc & Htake & Hdrop).
  fold n in Hc, Htake. fold c in Hc.
  rewrite Hc in Htake, Hdrop.
  now apply result_from_parts.
Qed.

(** X2.  A read changes neither the length of the buffer nor any position
    from the returned count on, whatever the log holds.  On an empty log,
    on a log just cleared, or with [max_count = 0], it returns 0 and leaves
    the buffer as it was. *)
Theorem read_spares_rest_of_buffer st buffer max_count :
  is_u32 (g_fault_count st) ->
  is_u32 max_count ->
  let out := fst (fault_get_log st buffer max_count) in
  let count := snd (fault_get_log st buffer max_count) in
  length out = length buffer
  /\ drop (Z.to_nat count) out = drop (Z.to_nat count) buffer
  /\ (g_fault_count st = 0 \/ max_count = 0 ->
      fault_get_log st buffer max_count = (buffer, 0))
  /\ fault_get_log (fault_clear_log st) buffer max_count = (buffer, 0).
Proof.
  intros Hc Hm out count.
  assert (forall st', 0 <= g_fault_count st' ->
            g_fault_count st' = 0 \/ max_count = 0 ->
            fault_get_log st' buffer max_count = (buffer, 0)) as Hempty.
  { intros st' Hpos Hzero. unfold fault_get_log.
    assert ((if g_fault_count st' <? max_count then g_fault_count st'
             else max_count) = 0) as ->; [|reflexivity].
    unfold is_u32 in Hm.
    destruct (Z.ltb_spec (g_fault_count st') max_count); lia. }
  split; [apply get_log_loop_length|]. split; [|split].
  - apply list_eq. intros j. rewrite !lookup_drop.
    apply fault_get_log_beyond; try assumption.
    unfold count. rewrite fault_get_log_count.
    pose proof (read_count_bounds st max_count Hc Hm). lia.
  - apply Hempty. apply Hc.
  - apply Hempty; [cbn; lia | left; reflexivity].
Qed.

(** X3.  Reading is idempotent on the buffer: a second read of the same log
    into the buffer the first read filled changes nothing, whether the slots
    read are intact or damaged. *)
Theorem read_again_changes_nothing st buffer max_count :
  fault_get_log st (fst (fault_get_log st buffer max_count)) max_count
  = fault_get_log st buffer max_count.
Proof.
  rewrite (surjective_pairing (fault_get_log st (fst _) max_count)).
  rewrite (surjective_pairing (fault_get_log st buffer max_count)) at 3.
  f_equal. apply list_eq. intros j.
  rewrite !fault_get_log_position.
  case_decide; [|reflexivity].
  destruct (buffer !! j) as [old|]; cbn; [|reflexivity].
  now rewrite slot_output_twice.
Qed.

(** The member [crc] of the record passed to [store_fault_record] does not
    reach the log. *)
Lemma store_fault_record_ignores_crc c record st :
  store_fault_record (set_crc c record) st = store_fault_record record st.
Proof.
  unfold store_fault_record. f_equal.
  apply list_eq. intros j.
  rewrite !list_lookup_alter, !list_lookup_insert.
  repeat case_decide; try reflexivity; tauto.
Qed.

End LogReading.

(** Five stores, a read of three into a buffer of four. *)
Lemma read_returns_newest_window_witness :
  fault_get_log (H := crc32_bitwise)
    (log_of (H := crc32_bitwise) (map tick_record [1; 2; 3; 4; 5]) erased_log)
    (repeat blank_record 4) 3
  = (map (sealed (H := crc32_bitwise)) (map tick_record [3; 4; 5])
     ++ [blank_record], 3).
Proof.
  apply (read_returns_newest_window (H := crc32_bitwise)
           (map tick_record [1; 2; 3; 4; 5]) erased_log
           (repeat blank_record 4) 3); concrete.
Defined.

(** A read of the damaged log with room for two. *)
Lemma read_spares_rest_of_buffer_witness :
  length (fst (fault_get_log (H := crc32_bitwise) damaged
                 [blank_record; beef_record] 2)) = 2%nat.
Proof.
  assert (is_u32 (g_fault_count damaged)) as Hc by concrete.
  assert (is_u32 2) as Hm by concrete.
  exact (proj1 (read_spares_rest_of_buffer (H := crc32_bitwise) damaged
                  [blank_record; beef_record] 2 Hc Hm)).
Defined.

(** * Further properties of the classifier and the handler *)

(** X4.  The class depends on the nine decoded bits only: clearing every
    other bit of the status word does not change it. *)
Theorem classifier_reads_decoded_bits_only (cfsr : Z) :
  analyze_cfsr (Z.land cfsr DECODED_BITS) = analyze_cfsr cfsr.
Proof.
  rewrite !analyze_cfsr_priority.
  unfold classify_by_priority, memory_access_violation, instruction_bus_error,
    data_bus_error, illegal_usage, divide_by_zero.
  rewrite !Z.land_spec.
  change (Z.testbit DECODED_BITS IACCVIOL) with true.
  change (Z.testbit DECODED_BITS DACCVIOL) with true.
  change (Z.testbit DECODED_BITS IBUSERR) with true.
  change (Z.testbit DECODED_BITS PRECISERR) with true.
  change (Z.testbit DECODED_BITS IMPRECISERR) with true.
  change (Z.testbit DECODED_BITS UNDEFINSTR) with true.
  change (Z.testbit DECODED_BITS INVSTATE) with true.
  change (Z.testbit DECODED_BITS INVPC) with true.
  change (Z.testbit DECODED_BITS DIVBYZERO) with true.
  now rewrite !andb_true_r.
Qed.

(** X5.  The two outcomes short of Fatal, exactly.  The class is
    Recoverable when the division-by-zero bit is set and no other decoded
    bit is, and only then.  It is Degraded when a precise or imprecise bus
    error is set with no access violation and no instruction bus error,
    and only then. *)
Theorem non_fatal_classes (cfsr : Z) :
  (analyze_cfsr cfsr = FAULT_CLASS_RECOVERABLE
   <-> divide_by_zero cfsr = true
       /\ memory_access_violation cfsr = false
       /\ instruction_bus_error cfsr = false
       /\ data_bus_error cfsr = false
       /\ illegal_usage cfsr = false)
  /\ (analyze_cfsr cfsr = FAULT_CLASS_DEGRADED
      <-> data_bus_error cfsr = true
          /\ memory_access_violation cfsr = false
          /\ instruction_bus_error cfsr = false).
Proof.
  rewrite analyze_cfsr_priority. unfold classify_by_priority.
  destruct (memory_access_violation cfsr), (instruction_bus_error cfsr),
    (data_bus_error cfsr), (illegal_usage cfsr), (divide_by_zero cfsr);
    (split; (split; [intros Hc | intros Hb]));
    try discriminate Hc; try reflexivity;
    try (repeat split; reflexivity);
    try (destruct Hb as (? & ? & ?); discriminate);
    destruct Hb as (? & ? & ? & ? & ?); discriminate.
Qed.

(** A division by zero with undecoded bits around it; a bus error with a
    division by zero behind it. *)
Lemma non_fatal_classes_witness :
  analyze_cfsr 0x01000080 = FAULT_CLASS_RECOVERABLE
  /\ analyze_cfsr 0x01000400 = FAULT_CLASS_DEGRADED.
Proof.
  split.
  - apply (proj1 (non_fatal_classes 0x01000080)). repeat split; reflexivity.
  - apply (proj2 (non_fatal_classes 0x01000400)). repeat split; reflexivity.
Defined.

Section HandlerOutcomes.
Context `{Checksum}.

(** The handler's writes to the frame, by action. *)
Lemma perform_frame a m :
  stack_frame (snd (perform a m))
  = match a with
    | Resume => <[6%nat := wrap32 (frame_word m 6 + 2)]> (stack_frame m)
    | _ => stack_frame m
    end.
Proof. destruct a; reflexivity. Qed.

Lemma handled_frame scb tick junk fault_type m :
  stack_frame (handled scb tick junk fault_type m)
  = match decide_action (fault_class_value (analyze_cfsr (CFSR scb))) with
    | Resume => <[6%nat := wrap32 (frame_word m 6 + 2)]> (stack_frame m)
    | _ => stack_frame m
    end.
Proof.
  unfold handled, fault_handler_common, bind, read_stack, modify_log, emit.
  cbn [fst snd]. rewrite perform_frame. reflexivity.
Qed.

Lemma handler_escalations scb tick junk fault_type m :
  List.filter is_escalation
    (map fst (handler_events scb tick junk fault_type m))
  = escalation_events
      (decide_action (fault_class_value (analyze_cfsr (CFSR scb)))) m.
Proof.
  rewrite handler_events_eq, map_map. cbn [fst].
  rewrite map_id.
  destruct (decide_action _); reflexivity.
Qed.

(** X6.  What the handler does is decided by the class alone.
    Recoverable: the stacked program counter is advanced by 2, modulo
    [2^32], and nothing else is done.  Degraded: degraded mode is entered
    and the frame is left alone.  Fatal: the safe state is entered, then
    the system is reset, and the frame is left alone. *)
Theorem handler_outcome_by_class scb tick junk fault_type m :
  let acts :=
    List.filter is_escalation
      (map fst (handler_events scb tick junk fault_type m)) in
  let frame := stack_frame (handled scb tick junk fault_type m) in
  match analyze_cfsr (CFSR scb) with
  | FAULT_CLASS_RECOVERABLE =>
      acts = [EvSkipInstruction (wrap32 (frame_word m 6 + 2))]
      /\ frame = <[6%nat := wrap32 (frame_word m 6 + 2)]> (stack_frame m)
  | FAULT_CLASS_DEGRADED =>
      acts = [EvEnterDegradedMode DEGRADE_REASON_BUS_FAULT]
      /\ frame = stack_frame m
  | FAULT_CLASS_FATAL =>
      acts = [EvEnterSafeState SAFE_STATE_CPU_FAULT; EvSystemReset]
      /\ frame = stack_frame m
  end.
Proof.
  intros acts frame. unfold acts, frame.
  rewrite handler_escalations, handled_frame.
  destruct (analyze_cfsr (CFSR scb)); split; reflexivity.
Qed.

(** X7.  The handler's result depends neither on the fault type the entry
    point passes nor on what the uninitialised [crc] member of its record
    happens to hold: the four entry points are served alike, and the junk
    never reaches the log. *)
Theorem handler_ignores_type_and_junk scb tick junk1 junk2 type1 type2 m :
  fault_handler_common scb tick junk1 type1 m
  = fault_handler_common scb tick junk2 type2 m.
Proof.
  assert (forall junk ft,
            fault_handler_common scb tick junk ft m
            = (tt, handled scb tick junk ft m)) as Hpair.
  { intros junk ft. unfold handled.
    now destruct (fault_handler_common scb tick junk ft m) as [[] m']. }
  assert (store_fault_record (captured_record scb tick junk1 m) (log m)
          = store_fault_record (captured_record scb tick junk2 m) (log m))
    as Hstore.
  { rewrite <- (store_fault_record_ignores_crc junk1
                  (captured_record scb tick junk2 m)).
    reflexivity. }
  assert (forall a b : machine,
            log a = log b -> stack_frame a = stack_frame b ->
            trace a = trace b -> a = b) as Hext
    by (intros [] []; cbn; congruence).
  rewrite !Hpair. f_equal. apply Hext.
  - now rewrite !handled_log.
  - now rewrite !handled_frame.
  - now rewrite !handled_trace, !handler_events_eq, Hstore.
Qed.

(** X8.  One trap, one entry.  On a log of the declared size the handler
    leaves a log of that size, advances the counter by one modulo [2^32],
    puts the record it captured, with its checksum, in the slot the old
    counter designates, and leaves every other slot as it was. *)
Theorem handler_appends_one_record scb tick junk fault_type m :
  well_formed (log m) ->
  let lg := log (handled scb tick junk fault_type m) in
  let index := Z.to_nat (g_fault_count (log m) mod FAULT_LOG_MAX_ENTRIES) in
  well_formed lg
  /\ g_fault_count lg = wrap32 (g_fault_count (log m) + 1)
  /\ g_fault_log lg !! index = Some (sealed (captured_record scb tick junk m))
  /\ (forall j : nat, j <> index -> g_fault_log lg !! j = g_fault_log (log m) !! j).
Proof.
  intros Hwf lg index. unfold lg. rewrite handled_log.
  split; [now apply store_fault_record_well_formed|].
  split; [apply store_fault_record_count|].
  split; [apply store_fault_record_slot, Hwf|].
  intros j Hj. now apply store_fault_record_other.
Qed.

(** Serving traps one after the other stores their records in order. *)
Lemma handle_traps_store_all traps lg :
  handle_traps traps lg = store_all (map trap_record traps) lg.
Proof.
  revert lg. induction traps as [|t traps IH]; intros lg; [reflexivity|].
  cbn [handle_traps store_all fold_left map].
  fold (handle_traps traps (handle_trap lg t)).
  fold (store_all (map trap_record traps)
          (store_fault_record (trap_record t) lg)).
  rewrite IH. f_equal.
  unfold handle_trap. now rewrite handled_log.
Qed.

(** X9.  The fault history is readable in order.  After a run of traps on
    a cleared log, fewer than [2^32] of them, a read whose window fits the
    capacity and the buffer returns the records of the latest traps, oldest
    first, each holding the frame words, status registers and tick captured
    at its trap. *)
Theorem fault_history_reads_back traps st0 buffer max_count :
  length (g_fault_log st0) = Z.to_nat FAULT_LOG_MAX_ENTRIES ->
  Z.of_nat (length traps) < modulus32 ->
  is_u32 max_count ->
  let n := Z.of_nat (length traps) in
  let c := Z.min n max_count in
  c <= FAULT_LOG_MAX_ENTRIES ->
  c <= Z.of_nat (length buffer) ->
  fault_get_log (handle_traps traps (fault_clear_log st0)) buffer max_count
  = (map (fun t => sealed (trap_record t)) (drop (Z.to_nat (n - c)) traps)
     ++ drop (Z.to_nat c) buffer, c).
Proof.
  intros Hlen Hn Hm n c Hcap Hroom.
  rewrite handle_traps_store_all.
  fold (log_of (map trap_record traps) st0).
  pose proof (fault_get_log_recent (map trap_record traps) st0 buffer
                max_count Hlen) as Hrecent.
  rewrite length_map in Hrecent. fold n c in Hrecent.
  destruct (Hrecent Hn Hm Hcap Hroom) as (Hc & Htake & Hdrop).
  rewrite Hc in Htake, Hdrop.
  apply result_from_parts; [exact Hc | | exact Hdrop].
  etransitivity; [exact Htake|].
  now rewrite <- fmap_drop, <- list_fmap_compose.
Qed.

End HandlerOutcomes.

Section HandlerCauses.
Context `{Checksum}.

(** X10.  From cause to action.  A division by zero with no other decoded
    bit makes the handler skip the instruction and nothing more.  A precise
    or imprecise bus error without access violation or instruction bus
    error makes it enter degraded mode and nothing more.  Every other
    status word makes it enter the safe state and reset. *)
Theorem escalation_by_cause scb tick junk fault_type m :
  let c := CFSR scb in
  let acts :=
    List.filter is_escalation
      (map fst (handler_events scb tick junk fault_type m)) in
  (divide_by_zero c = true /\ memory_access_violation c = false
   /\ instruction_bus_error c = false /\ data_bus_error c = false
   /\ illegal_usage c = false ->
   acts = [EvSkipInstruction (wrap32 (frame_word m 6 + 2))])
  /\ (data_bus_error c = true /\ memory_access_violation c = false
      /\ instruction_bus_error c = false ->
      acts = [EvEnterDegradedMode DEGRADE_REASON_BUS_FAULT])
  /\ (memory_access_violation c = true \/ instruction_bus_error c = true
      \/ (data_bus_error c = false
          /\ (illegal_usage c = true \/ divide_by_zero c = false)) ->
      acts = [EvEnterSafeState SAFE_STATE_CPU_FAULT; EvSystemReset]).
Proof.
  intros c acts. unfold acts. rewrite handler_escalations.
  fold c. rewrite analyze_cfsr_priority. unfold classify_by_priority.
  destruct (memory_access_violation c), (instruction_bus_error c),
    (data_bus_error c), (illegal_usage c), (divide_by_zero c);
    (split; [|split]); intros Hcause; try reflexivity; exfalso;
    intuition discriminate.
Qed.

End HandlerCauses.

(** The three kinds of cause on [idle_machine]. *)
Lemma escalation_by_cause_witness :
  List.filter is_escalation
    (map fst (handler_events (H := crc32_bitwise) (mk_scb 0x01000000 0 0 0 0 0)
                1 0 3 idle_machine))
  = [EvSkipInstruction 0x08000102]
  /\ List.filter is_escalation
       (map fst (handler_events (H := crc32_bitwise) bus_fault_status
                   1 0 2 idle_machine))
     = [EvEnterDegradedMode DEGRADE_REASON_BUS_FAULT]
  /\ List.filter is_escalation
       (map fst (handler_events (H := crc32_bitwise) (mk_scb 0x80 0 0 0 0 0)
                   1 0 1 idle_machine))
     = [EvEnterSafeState SAFE_STATE_CPU_FAULT; EvSystemReset].
Proof.
  split; [|split].
  - apply (proj1 (escalation_by_cause (H := crc32_bitwise)
                    (mk_scb 0x01000000 0 0 0 0 0) 1 0 3 idle_machine)).
    repeat split; reflexivity.
  - apply (proj1 (proj2 (escalation_by_cause (H := crc32_bitwise)
                           bus_fault_status 1 0 2 idle_machine))).
    repeat split; reflexivity.
  - apply (proj2 (proj2 (escalation_by_cause (H := crc32_bitwise)
                           (mk_scb 0x80 0 0 0 0 0) 1 0 1 idle_machine))).
    right. right. split; [reflexivity | right; reflexivity].
Defined.

(** The handler on [idle_machine]: the counter goes from 0 to 1. *)
Lemma handler_appends_one_record_witness :
  g_fault_count (log (handled (H := crc32_bitwise) bus_fault_status 42 7 2
                        idle_machine)) = wrap32 (0 + 1).
Proof.
  assert (well_formed (log idle_machine)) as Hwf by concrete.
  exact (proj1 (proj2 (handler_appends_one_record (H := crc32_bitwise)
                         bus_fault_status 42 7 2 idle_machine Hwf))).
Defined.

(** A division by zero, then a bus error, read back with room for four. *)
Lemma fault_history_reads_back_witness :
  fault_get_log (H := crc32_bitwise)
    (handle_traps (H := crc32_bitwise) [divzero_trap; bus_trap]
       (fault_clear_log erased_log))
    (repeat blank_record 4) 4
  = (map (fun t => sealed (H := crc32_bitwise) (trap_record t))
       [divzero_trap; bus_trap]
     ++ [blank_record; blank_record], 2).
Proof.
  apply (fault_history_reads_back (H := crc32_bitwise)
           [divzero_trap; bus_trap] erased_log (repeat blank_record 4) 4);
    concrete.
Defined.

(** * Further properties of the watchdog *)

Module WatchdogMore.
Import Watchdog WatchdogFacts WatchdogRuns.

Lemma step_timeout w c : m_timeout_ms (step w c) = m_timeout_ms w.
Proof.
  destruct c as [now|now]; cbn; unfold start, kick.
  - destruct (m_started w); reflexivity.
  - destruct (m_started w); cbn; [|reflexivity].
    destruct (is_late now w); reflexivity.
Qed.

Lemma run_calls_timeout calls w :
  m_timeout_ms (run_calls calls w) = m_timeout_ms w.
Proof.
  induction calls as [|c calls IH] using rev_ind; [reflexivity|].
  now rewrite run_calls_snoc, step_timeout.
Qed.

Lemma step_started w c : m_started w = true -> m_started (step w c) = true.
Proof.
  intros Hs. destruct c as [now|now]; cbn; unfold start, kick; rewrite Hs; cbn.
  - exact Hs.
  - destruct (is_late now w); reflexivity.
Qed.

Lemma run_calls_started calls w :
  m_started w = true -> m_started (run_calls calls w) = true.
Proof.
  intros Hs. induction calls as [|c calls IH] using rev_ind; [exact Hs|].
  rewrite run_calls_snoc. now apply step_started.
Qed.

(** The 32-bit difference of two readings of the millisecond counter is
    the time between them, also when the counter wrapped in between. *)
Lemma elapsed_rollover w d :
  is_u32 (m_last_kick_time w) ->
  is_u32 d ->
  elapsed (wrap32 (m_last_kick_time w + d)) w = d.
Proof.
  intros Hlast Hd. unfold elapsed, wrap32.
  rewrite Zminus_mod_idemp_l.
  replace (m_last_kick_time w + d - m_last_kick_time w) with d by lia.
  apply Z.mod_small. exact Hd.
Qed.

Lemma lateness_threshold_range w :
  10 <= m_timeout_ms w <= 1000 -> 5 <= lateness_threshold w <= 550.
Proof.
  intros Ht. unfold lateness_threshold. Z.div_mod_to_equations. lia.
Qed.

Lemma is_late_threshold now w :
  10 <= m_timeout_ms w <= 1000 ->
  is_late now w = negb (elapsed now w <=? lateness_threshold w).
Proof.
  intros Ht. pose proof (is_late_iff now w Ht) as Hiff.
  fold (lateness_threshold w) in Hiff.
  destruct (is_late now w); destruct (Z.leb_spec (elapsed now w)
                                        (lateness_threshold w));
    try reflexivity; cbn.
  - assert (lateness_threshold w < elapsed now w) by now apply Hiff. lia.
  - assert (true = false -> False) by discriminate.
    assert (false = true) by now apply Hiff. discriminate.
Qed.

(** X11.  The timeout is settled by the constructor: the value asked for
    when it lies in [10, 1000], the default 100 otherwise.  No sequence of
    [start()] and [kick()] calls changes it. *)
Theorem timeout_settled_at_construction (timeout : Z) (calls : list call) :
  let w := run_calls calls (after (construct timeout)) in
  m_timeout_ms w
  = (if (timeout <? 10) || (timeout >? 1000) then WDT_DEFAULT_TIMEOUT_MS
     else timeout)
  /\ 10 <= m_timeout_ms w <= 1000.
Proof.
  intros w. unfold w. rewrite run_calls_timeout. split.
  - unfold construct.
    destruct ((timeout <? 10) || (timeout >? 1000)); reflexivity.
  - apply construct_invariant.
Qed.

(** X12.  An armed watchdog stays armed: after any further calls it is
    still armed, and [start()] still fails with the already-started
    warning and no write to the hardware. *)
Theorem armed_for_good (w : state) (calls : list call) (now : Z) :
  m_started w = true ->
  let w' := run_calls calls w in
  m_started w' = true
  /\ start now w' = mk_outcome false w' [DiagWarn WDT_ALREADY_STARTED []].
Proof.
  intros Hs w'.
  assert (m_started w' = true) as Hs' by now apply run_calls_started.
  split; [exact Hs'|]. unfold start. now rewrite Hs'.
Qed.

(** X13.  Until [start()] is called, [kick()] does nothing: it returns
    [false], writes nothing to the hardware, logs nothing, and any number
    of such calls leaves the object as it was. *)
Theorem kick_before_start_is_inert (w : state) (times : list Z) (now : Z) :
  m_started w = false ->
  kick now w = mk_outcome false w []
  /\ run_calls (map CallKick times) w = w.
Proof.
  intros Hs. split.
  - unfold kick. now rewrite Hs.
  - induction times as [|t times IH] using rev_ind; [reflexivity|].
    rewrite map_app. cbn [map]. rewrite run_calls_snoc, IH.
    cbn. unfold kick. now rewrite Hs.
Qed.

(** X14.  On an armed watchdog in a reachable state, [kick()] returns
    [true] exactly when the elapsed time is at most the expected interval
    plus the tolerance.  It logs the late-kick warning and increments the
    late counter exactly when it returns [false].  Late or not, it
    increments the confirmation counter and takes [now] as the new
    baseline.  The elapsed time is the true interval also when the
    millisecond counter wrapped since the previous confirmation. *)
Theorem kick_on_time_iff (w : state) (now : Z) :
  reachable w ->
  m_started w = true ->
  let o := kick now w in
  (returned o = true <-> elapsed now w <= lateness_threshold w)
  /\ m_late_kick_count (after o)
     = (if returned o then m_late_kick_count w
        else wrap32 (m_late_kick_count w + 1))
  /\ emitted o
     = (if returned o then [HwKick]
        else [DiagWarn WDT_LATE_KICK [elapsed now w; expected_interval w];
              HwKick])
  /\ m_kick_count (after o) = wrap32 (m_kick_count w + 1)
  /\ m_last_kick_time (after o) = now
  /\ (forall d, is_u32 (m_last_kick_time w) -> is_u32 d ->
        elapsed (wrap32 (m_last_kick_time w + d)) w = d).
Proof.
  intros Hreach Hs o.
  destruct (reachable_invariant w Hreach) as (Ht & _ & _).
  pose proof (is_late_threshold now w Ht) as Hlate.
  unfold o, kick. rewrite Hs. cbn [negb].
  split; [|split; [|split; [|split; [|split]]]].
  - destruct (is_late now w); cbn; symmetry in Hlate.
    + apply negb_true_iff, Z.leb_gt in Hlate. split; [discriminate | lia].
    + apply negb_false_iff, Z.leb_le in Hlate. tauto.
  - destruct (is_late now w); reflexivity.
  - destruct (is_late now w); reflexivity.
  - destruct (is_late now w); reflexivity.
  - destruct (is_late now w); reflexivity.
  - intros d. apply elapsed_rollover.
Qed.

(** Confirmations spaced by at most the threshold are all on time. *)
Lemma periodic_kicks_state (n : nat) (t d : Z) w :
  m_started w = true ->
  10 <= m_timeout_ms w <= 1000 ->
  m_last_kick_time w = t ->
  is_u32 t ->
  0 <= d <= lateness_threshold w ->
  is_u32 (m_kick_count w) ->
  run_calls (periodic_kicks t d n) w
  = mk_state (m_timeout_ms w) true (periodic_end t d n)
      (wrap32 (m_kick_count w + Z.of_nat n)) (m_late_kick_count w).
Proof.
  revert t w. induction n as [|n IH]; intros t w Hs Ht Hlast Hu Hd Hk.
  - destruct w; cbn in *; subst.
    now rewrite Z.add_0_r, wrap32_small.
  - cbn [periodic_kicks periodic_end].
    change (run_calls (CallKick (wrap32 (t + d)) :: periodic_kicks (wrap32 (t + d)) d n) w)
      with (run_calls (periodic_kicks (wrap32 (t + d)) d n)
              (after (kick (wrap32 (t + d)) w))).
    pose proof (lateness_threshold_range w Ht) as Hrange.
    assert (is_u32 d) as Hdu by (unfold is_u32, modulus32; lia).
    assert (is_late (wrap32 (t + d)) w = false) as Hlate.
    { rewrite is_late_threshold by assumption.
      rewrite <- Hlast, elapsed_rollover by (try rewrite Hlast; assumption).
      apply negb_false_iff, Z.leb_le. lia. }
    assert (after (kick (wrap32 (t + d)) w)
            = mk_state (m_timeout_ms w) true (wrap32 (t + d))
                (wrap32 (m_kick_count w + 1)) (m_late_kick_count w)) as ->.
    { unfold kick. rewrite Hs, Hlate. reflexivity. }
    rewrite IH; try reflexivity; try assumption;
      try apply wrap32_range.
    cbn. f_equal. unfold wrap32.
    rewrite Zplus_mod_idemp_l. f_equal. lia.
Qed.

(** X15.  A client that starts the watchdog and then confirms every [d]
    milliseconds, [d] at most the expected interval plus the tolerance, is
    never late, also across a wrap of the millisecond counter: after [n]
    confirmations the statistics show [n] confirmations modulo [2^32], no
    late one, the timeout, and a running watchdog. *)
Theorem periodic_client_never_late (timeout t0 d : Z) (n : nat) :
  is_u32 t0 ->
  let w0 := after (start t0 (after (construct timeout))) in
  0 <= d <= lateness_threshold w0 ->
  let w := run_calls (periodic_kicks t0 d n) w0 in
  get_stats w = mk_stats (wrap32 (Z.of_nat n)) 0 (m_timeout_ms w0) true
  /\ m_last_kick_time w = periodic_end t0 d n.
Proof.
  intros Hu w0 Hd w.
  assert (m_started w0 = true /\ m_last_kick_time w0 = t0
          /\ m_kick_count w0 = 0 /\ m_late_kick_count w0 = 0)
    as (Hs & Hlast & Hk & Hl).
  { unfold w0, start, construct.
    destruct ((timeout <? 10) || (timeout >? 1000)); cbn; auto. }
  assert (10 <= m_timeout_ms w0 <= 1000) as Ht.
  { apply (start_invariant t0), construct_invariant. }
  unfold w. rewrite (periodic_kicks_state n t0 d w0); try assumption.
  - unfold get_stats. cbn. rewrite Hk, Hl. split; reflexivity.
  - rewrite Hk. unfold is_u32, modulus32. lia.
Qed.

(** X16.  The tick conversion is exact on the whole range of valid
    timeouts exactly when the watchdog clock is at most 4294967 Hz; past
    that the product wraps for the longest timeout.  When exact it grows
    with the timeout, and it is at least 1 for a clock of 100 Hz or more. *)
Theorem ms_to_ticks_exact_iff (clock : Z) :
  0 < clock ->
  ((forall ms, 10 <= ms <= 1000 -> ms_to_ticks clock ms = ms * clock / 1000)
   <-> clock <= 4294967)
  /\ (clock <= 4294967 ->
      forall ms ms', 10 <= ms <= ms' -> ms' <= 1000 ->
        ms_to_ticks clock ms <= ms_to_ticks clock ms')
  /\ (100 <= clock <= 4294967 ->
      forall ms, 10 <= ms <= 1000 -> 1 <= ms_to_ticks clock ms).
Proof.
  intros Hclock.
  assert (clock <= 4294967 -> forall ms, 10 <= ms <= 1000 ->
            ms_to_ticks clock ms = ms * clock / 1000) as Hexact.
  { intros Hc ms Hms. unfold ms_to_ticks.
    rewrite wrap32_small; [reflexivity|].
    unfold is_u32, modulus32. nia. }
  split; [split; [|exact Hexact]|split].
  - intros Hall.
    destruct (Z_le_gt_dec clock 4294967) as [Hle|Hgt]; [exact Hle|].
    exfalso. specialize (Hall 1000 ltac:(lia)).
    unfold ms_to_ticks, wrap32, modulus32 in Hall.
    assert (1000 * clock / 1000 = clock) as Hback
      by (rewrite Z.mul_comm; apply Z.div_mul; lia).
    rewrite Hback in Hall.
    assert ((1000 * clock) mod 2 ^ 32 <= 1000 * clock - 2 ^ 32) as Hwrap.
    { rewrite Z.mod_eq by lia.
      assert (1 <= 1000 * clock / 2 ^ 32)
        by (apply Z.div_le_lower_bound; lia).
      nia. }
    assert ((1000 * clock) mod 2 ^ 32 / 1000 <= (1000 * clock - 2 ^ 32) / 1000)
      as Hdiv by (apply Z.div_le_mono; lia).
    assert ((1000 * clock - 2 ^ 32) / 1000 < clock)
      by (apply Z.div_lt_upper_bound; lia).
    lia.
  - intros Hc ms ms' Hms Hms'.
    rewrite !Hexact by lia.
    apply Z.div_le_mono; [lia | nia].
  - intros Hc ms Hms. rewrite Hexact by lia.
    apply Z.div_le_lower_bound; [lia | nia].
Qed.

(** Further calls on [armed_default], a second [start()] among them. *)
Lemma armed_for_good_witness :
  m_started (run_calls [CallKick 9; CallStart 11; CallKick 2000] armed_default)
  = true.
Proof.
  exact (proj1 (armed_for_good armed_default
                  [CallKick 9; CallStart 11; CallKick 2000] 0 eq_refl)).
Defined.

(** Kicks on a watchdog fresh from the constructor. *)
Lemma kick_before_start_is_inert_witness :
  run_calls (map CallKick [5; 500; 5000]) (after (construct 100))
  = after (construct 100).
Proof.
  exact (proj2 (kick_before_start_is_inert (after (construct 100))
                  [5; 500; 5000] 0 eq_refl)).
Defined.

(** Timeout 100: 55 ms is on time, also from just before the wrap. *)
Lemma kick_on_time_iff_witness :
  returned (kick 55 armed_default) = true
  /\ elapsed (wrap32 (0 + 4294967295)) armed_default = 4294967295.
Proof.
  assert (reachable armed_default) as Hreach
    by (exists 100, [CallStart 0]; reflexivity).
  destruct (kick_on_time_iff armed_default 55 Hreach eq_refl)
    as (Hiff & _ & _ & _ & _ & Hwrap).
  split.
  - apply Hiff. vm_compute. discriminate.
  - apply Hwrap; vm_compute; split; (discriminate || reflexivity).
Defined.

(** Timeout 100 ms, a confirmation every 40 ms for one second, started
    40 ms before the millisecond counter wraps. *)
Lemma periodic_client_never_late_witness :
  get_stats (run_calls (periodic_kicks 4294967256 40 25)
               (after (start 4294967256 (after (construct 100)))))
  = mk_stats 25 0 100 true.
Proof.
  assert (is_u32 4294967256) as Hu by (unfold is_u32, modulus32; lia).
  refine (proj1 (periodic_client_never_late 100 4294967256 40 25 Hu _)).
  vm_compute. split; discriminate.
Defined.

(** A 32768 Hz clock. *)
Lemma ms_to_ticks_exact_iff_witness :
  ms_to_ticks 32768 100 = 100 * 32768 / 1000.
Proof.
  assert (0 < 32768) as Hclock by lia.
  apply (proj2 (proj1 (ms_to_ticks_exact_iff 32768 Hclock))); lia.
Defined.

End WatchdogMore.

(** * Damage to a stored checksum *)

Section CrcDamage.
Context `{Checksum}.

Lemma set_crc_not_intact c e :
  record_intact e = true -> c <> crc e -> record_intact (set_crc c e) = false.
Proof.
  unfold record_intact. intros He Hc.
  apply Z.eqb_eq in He.
  change (expected_crc (set_crc c e)) with (expected_crc e).
  change (crc (set_crc c e)) with c.
  apply Z.eqb_neq. congruence.
Qed.

(** X17.  When the stored checksum of one intact entry is overwritten
    with a different value, a read marks every output position that reads
    that slot as corrupted, [pc = 0xDEADBEEF] and [timestamp = 0] over what
    the buffer held, and returns every other position as it would have
    without the damage. *)
Theorem crc_damage_detected_locally st (s : nat) e c buffer max_count
    (j : nat) old :
  g_fault_log st !! s = Some e ->
  record_intact e = true ->
  c <> crc e ->
  buffer !! j = Some old ->
  Z.of_nat j < Z.of_nat (Z.to_nat (read_count st max_count)) ->
  fst (fault_get_log (with_crc_damage s c st) buffer max_count) !! j
  = if decide (read_index st (read_count st max_count) (Z.of_nat j) = s)
    then Some (mark_corrupted old)
    else fst (fault_get_log st buffer max_count) !! j.
Proof.
  intros Hs He Hc Hold Hj.
  rewrite !fault_get_log_position.
  change (read_count (with_crc_damage s c st) max_count)
    with (read_count st max_count).
  destruct (decide (Z.of_nat j < Z.of_nat (Z.to_nat (read_count st max_count))))
    as [_|Hout]; [|contradiction].
  rewrite Hold. cbn [fmap option_fmap option_map].
  unfold slot_output.
  change (read_index (with_crc_damage s c st)) with (read_index st).
  cbn [with_crc_damage g_fault_log].
  rewrite list_lookup_alter.
  destruct (decide (read_index st (read_count st max_count) (Z.of_nat j) = s))
    as [->|Hne].
  - rewrite decide_True by reflexivity. rewrite Hs. cbn.
    now rewrite set_crc_not_intact.
  - rewrite decide_False by congruence. reflexivity.
Qed.

End CrcDamage.

(** The checksum of the stored [beef_record] set to 0. *)
Lemma crc_damage_detected_locally_witness :
  fst (fault_get_log (H := crc32_bitwise)
         (with_crc_damage 0 0 stored_ok) [blank_record] 1) !! 0%nat
  = Some (mark_corrupted blank_record).
Proof.
  apply (crc_damage_detected_locally (H := crc32_bitwise) stored_ok 0
           (sealed (H := crc32_bitwise) beef_record) 0 [blank_record] 1
           0%nat blank_record); try concrete.
  vm_compute. discriminate.
Defined.
